(** * audio-tempo-bot: the audio transformation and naming pipeline

    A shallow embedding of [audio_processor.py] (class [AudioProcessor]):
    the title clean-up cascade of [process_audio], the metadata arguments and
    the ffmpeg command it assembles, [get_output_filename] and
    [is_telegram_playable_format], together with the Python built-ins they
    rest on ([str] methods, [pathlib] name splitting, binary64 arithmetic). *)

From Stdlib Require Import String Ascii DecimalString SpecFloat.
From Stdlib Require Import ZArith NArith List Bool Lia.
Import ListNotations.


(* ================================================================== *)
(** * Python strings

    A Python [str] is a sequence of Unicode code points; [len], indexing and
    slicing count code points, not bytes.  The separators of the source
    contain U+2013 and U+2014, so bytes would not do. *)

Module PyStr.

Definition char := N.
Definition str := list char.

(** ASCII literals: every byte of the literal is its own code point. *)
Definition lit (x : string) : str := map N_of_ascii (list_ascii_of_string x).

Definition EN_DASH : char := 8211%N.   (* U+2013 *)
Definition EM_DASH : char := 8212%N.   (* U+2014 *)
Definition SPACE : char := 32%N.

Fixpoint str_eqb (a b : str) : bool :=
  match a, b with
  | [], [] => true
  | x :: a', y :: b' => N.eqb x y && str_eqb a' b'
  | _, _ => false
  end.

(** [c in s] for a one-character [c]. *)
Definition char_in (c : char) (s : str) : bool := existsb (N.eqb c) s.

(** [x in xs] for a list of strings. *)
Definition str_in (x : str) (xs : list str) : bool := existsb (str_eqb x) xs.

(** [s.startswith(p)] *)
Fixpoint startswith (s p : str) : bool :=
  match p, s with
  | [], _ => true
  | _ :: _, [] => false
  | y :: p', x :: s' => N.eqb x y && startswith s' p'
  end.

(** [s.endswith(p)] *)
Definition endswith (s p : str) : bool := startswith (rev s) (rev p).

(** [s.find(p)]: index of the first occurrence, [None] for Python's -1. *)
Fixpoint find (s p : str) : option nat :=
  if startswith s p then Some 0
  else match s with
       | [] => None
       | _ :: s' => option_map S (find s' p)
       end.

(** [p in s] *)
Definition contains (s p : str) : bool :=
  match find s p with Some _ => true | None => false end.

(** [s.split(sep, 1)]: at most one split, at the first occurrence. *)
Definition split1 (s sep : str) : list str :=
  match find s sep with
  | Some i => [firstn i s; skipn (i + length sep) s]
  | None => [s]
  end.

(** [s.replace(old, new)] for a non-empty [old]: occurrences are found left
    to right and do not overlap.  [skip] counts the characters of a match
    that are still to be consumed. *)
Fixpoint replace_from (old new : str) (skip : nat) (s : str) : str :=
  match s with
  | [] => []
  | c :: s' =>
      match skip with
      | S k => replace_from old new k s'
      | O => if startswith s old
             then new ++ replace_from old new (length old - 1) s'
             else c :: replace_from old new 0 s'
      end
  end.

Definition replace (s old new : str) : str := replace_from old new 0 s.

(** [str.isspace] on one code point (the characters [str.strip()] removes). *)
Definition is_space (c : char) : bool :=
  ((9 <=? c) && (c <=? 13) || (28 <=? c) && (c <=? 32)
   || (c =? 133) || (c =? 160) || (c =? 5760)
   || (8192 <=? c) && (c <=? 8202)
   || (c =? 8232) || (c =? 8233) || (c =? 8239) || (c =? 8287)
   || (c =? 12288))%N.

(** [s.lstrip()], [s.rstrip()], [s.strip()] *)
Fixpoint lstrip (s : str) : str :=
  match s with
  | c :: s' => if is_space c then lstrip s' else s
  | [] => []
  end.

Definition rstrip (s : str) : str := rev (lstrip (rev s)).

Definition strip (s : str) : str := rstrip (lstrip s).

(** [str(n)] and [format(n, "+d")] for an integer. *)
Definition str_of_int (n : Z) : str := lit (NilZero.string_of_int (Z.to_int n)).

Definition str_of_int_signed (n : Z) : str :=
  if (0 <=? n)%Z then lit "+" ++ str_of_int n else str_of_int n.

(** Case mappings.  [str.lower], [str.upper] and [str.title] follow the
    Unicode character database of the interpreter, which is not part of the
    program: the embedding takes them as an interface. *)
Class CaseOps := {
  str_lower : str -> str;
  str_upper : str -> str;
  str_title : str -> str
}.

(** The instance for text whose cased characters are ASCII letters. *)
Definition is_ascii_upper (c : char) : bool := ((65 <=? c) && (c <=? 90))%N.
Definition is_ascii_lower (c : char) : bool := ((97 <=? c) && (c <=? 122))%N.
Definition lower_char (c : char) : char := if is_ascii_upper c then (c + 32)%N else c.
Definition upper_char (c : char) : char := if is_ascii_lower c then (c - 32)%N else c.
Definition is_cased (c : char) : bool := is_ascii_upper c || is_ascii_lower c.

(** [str.title]: a cased character is upper-cased when the character before
    it is not cased, lower-cased otherwise. *)
Fixpoint title_from (previous_is_cased : bool) (s : str) : str :=
  match s with
  | [] => []
  | c :: s' =>
      (if previous_is_cased then lower_char c else upper_char c)
        :: title_from (is_cased c) s'
  end.

#[export] Instance ascii_case : CaseOps := {|
  str_lower := map lower_char;
  str_upper := map upper_char;
  str_title := title_from false
|}.

End PyStr.
Export PyStr.

(* ================================================================== *)
(** * Python floats (IEEE 754 binary64) *)

Module PyFloat.

Definition float := spec_float.
Definition prec : Z := 53.
Definition emax : Z := 1024.

Definition fmul : float -> float -> float := SFmul prec emax.
Definition fsub : float -> float -> float := SFsub prec emax.
Definition flt : float -> float -> bool := SFltb.

(** [float(n)] for an int, rounded to nearest even; [None] is
    [OverflowError]. *)
Definition float_of_int (n : Z) : option float :=
  match binary_normalize prec emax n 0 false with
  | S754_infinity _ => None
  | S754_nan => None
  | f => Some f
  end.

(** [int(x)]: truncation toward zero; [None] is the [OverflowError] or
    [ValueError] Python raises on an infinity or a NaN. *)
Definition int_of_float (x : float) : option Z :=
  match x with
  | S754_zero _ => Some 0%Z
  | S754_finite s m e =>
      Some (cond_Zopp s
              (match e with
               | Zneg k => Z.pos m / 2 ^ Z.pos k
               | _ => Z.pos m * 2 ^ e
               end))%Z
  | S754_infinity _ => None
  | S754_nan => None
  end.

(** [n * x] for an int [n] and a float [x]. *)
Definition int_mul_float (n : Z) (x : float) : option float :=
  option_map (fun fn => fmul fn x) (float_of_int n).

Definition f_1_0 : float := S754_finite false 4503599627370496 (-52).
Definition f_0_5 : float := S754_finite false 4503599627370496 (-53).
Definition f_0_75 : float := S754_finite false 6755399441055744 (-53).
(** The doubles nearest to 0.8 and 1.2 (the literals [0.8] and [1.2]). *)
Definition f_0_8 : float := S754_finite false 7205759403792794 (-53).
Definition f_1_2 : float := S754_finite false 5404319552844595 (-52).

End PyFloat.
Export PyFloat.

(* ================================================================== *)
(** * pathlib: the final component of a path, its stem and its suffix

    A [Path] is carried as its string; [PurePosixPath] semantics. *)

Module PyPath.

Definition SLASH : char := 47%N.
Definition DOT : char := 46%N.

(** The components between slashes, [cur] being the one under way. *)
Fixpoint split_slash (cur : str) (s : str) : list str :=
  match s with
  | [] => [cur]
  | c :: s' => if N.eqb c SLASH then cur :: split_slash [] s'
               else split_slash (cur ++ [c]) s'
  end.

(** [Path(p).name]: empty components and [.] components are dropped when the
    path is parsed; the name is the last one left. *)
Definition path_name (p : str) : str :=
  last (filter (fun part => negb (str_eqb part []) && negb (str_eqb part [DOT]))
               (split_slash [] p)) [].

(** [name.rfind('.')] *)
Fixpoint rfind_char (c : char) (s : str) : option nat :=
  match s with
  | [] => None
  | x :: s' => match rfind_char c s' with
               | Some i => Some (S i)
               | None => if N.eqb x c then Some 0 else None
               end
  end.

(** The index a suffix starts at: the last dot, unless it is the first or
    the last character of the name. *)
Definition suffix_index (name : str) : option nat :=
  match rfind_char DOT name with
  | Some i => if (0 <? i) && (i <? length name - 1) then Some i else None
  | None => None
  end.

(** [Path(p).suffix] *)
Definition path_suffix (p : str) : str :=
  let name := path_name p in
  match suffix_index name with Some i => skipn i name | None => [] end.

(** [Path(p).stem] *)
Definition path_stem (p : str) : str :=
  let name := path_name p in
  match suffix_index name with Some i => firstn i name | None => name end.

End PyPath.
Export PyPath.

(* ================================================================== *)
(** * Exceptions and the trace of external processes *)

Inductive exception :=
| UnboundLocalError | OverflowError | ValueError | TimeoutExpired | OSError.

Inductive exn (A : Type) :=
| Return (a : A)
| Raise (e : exception).
Arguments Return {A} a.
Arguments Raise {A} e.

(** One entry per [subprocess.run]: the argument vector. *)
Inductive event := Run (cmd : list str).

(** What ffmpeg did when it was run. *)
Inductive run_result :=
| Exited (returncode : Z)
| TimedOut
| NotStarted.

(** The file system and the two external tools, as seen by the processor.
    [probe_sample_rate] and [probe_tags] give what [_get_sample_rate] and
    [_get_metadata] make of ffprobe's answer (they swallow every failure
    themselves: [None], the empty dict). *)
Record world := {
  path_exists : str -> bool;
  probe_sample_rate : str -> option Z;
  probe_tags : str -> list (str * str);
  ffmpeg : list str -> run_result;
  output_nonempty : str -> bool
}.

(** State (the trace, newest last) and exceptions. *)
Definition M (A : Type) : Type := list event -> exn A * list event.

Definition ret {A} (a : A) : M A := fun t => (Return a, t).
Definition raise {A} (e : exception) : M A := fun t => (Raise e, t).
Definition bind {A B} (m : M A) (k : A -> M B) : M B :=
  fun t => match m t with
           | (Return a, t') => k a t'
           | (Raise e, t') => (Raise e, t')
           end.
Definition subprocess_run (cmd : list str) : M unit :=
  fun t => (Return tt, t ++ [Run cmd]).
Definition try_except {A} (body : M A) (handler : exception -> M A) : M A :=
  fun t => match body t with
           | (Return a, t') => (Return a, t')
           | (Raise e, t') => handler e t'
           end.
Definition lift {A} (x : exn A) : M A := fun t => (x, t).

Notation "x <- m ;; k" := (bind m (fun x => k))
  (at level 61, m at next level, right associativity).
Notation "m ;;; k" := (bind m (fun _ => k))
  (at level 61, right associativity).

Definition exn_bind {A B} (x : exn A) (k : A -> exn B) : exn B :=
  match x with Return a => k a | Raise e => Raise e end.

(** [for x in xs: if ...: result = ...; break]: the first element that
    gives a result. *)
Fixpoint first_match {A B} (f : A -> option B) (xs : list A) : option B :=
  match xs with
  | [] => None
  | x :: xs' => match f x with Some b => Some b | None => first_match f xs' end
  end.

Definition nonempty (s : str) : bool :=
  match s with [] => false | _ :: _ => true end.

(* ================================================================== *)
(** * class AudioProcessor *)

Module AudioProcessor.

Definition HYPHEN : char := 45%N.
Definition TAB : char := 9%N.
Definition BACKSLASH : char := 92%N.

Definition SLOWED : str := lit " (Slowed)".
Definition SPEED_UP : str := lit " (Speed Up)".

(** [speed_tag] of [process_audio] and [get_output_filename]. *)
Definition speed_tag (speed_factor : float) : str :=
  if flt speed_factor f_1_0 then SLOWED
  else if flt f_1_0 speed_factor then SPEED_UP
  else [].

(** [separators], in the order of the source. *)
Definition separators : list str :=
  [ [SPACE; HYPHEN; SPACE]; [SPACE; EN_DASH; SPACE]; [SPACE; EM_DASH; SPACE];
    lit " : "; lit ": "; lit " | "; lit " / ";
    [HYPHEN; SPACE]; [EN_DASH; SPACE]; [EM_DASH; SPACE];
    [SPACE; HYPHEN]; [SPACE; EN_DASH]; [SPACE; EM_DASH];
    lit ":"; lit "|"; lit "/" ].

(** The characters of ['-–—:|/'] and of ['-–—:|/ ']. *)
Definition LEADING_SEPARATORS : str :=
  [HYPHEN; EN_DASH; EM_DASH] ++ lit ":|/".
Definition LEADING_SEPARATORS_SPACE : str := LEADING_SEPARATORS ++ [SPACE].

(** A tag dict, in insertion order. *)
Definition dict := list (str * str).

(** [d.get(key, default)] *)
Fixpoint dict_get (d : dict) (key default : str) : str :=
  match d with
  | [] => default
  | (k, v) :: d' => if str_eqb k key then v else dict_get d' key default
  end.

(** [s.replace(" (Slowed)", "").replace(" (Speed Up)", "").strip()] *)
Definition strip_speed_tags (s : str) : str :=
  strip (replace (replace s SLOWED []) SPEED_UP []).

(** [while s and s[0] in chars: s = s[1:].strip()].  Every round shortens
    [s], so [length s] rounds are enough ([strip_leading_exits]). *)
Fixpoint strip_leading_loop (chars : str) (fuel : nat) (s : str) : str :=
  match fuel with
  | O => s
  | S fuel' =>
      match s with
      | c :: rest => if char_in c chars
                     then strip_leading_loop chars fuel' (strip rest)
                     else s
      | [] => s
      end
  end.

Definition strip_leading (chars : str) (s : str) : str :=
  strip_leading_loop chars (length s) s.

(** The loop that moves [remaining_pos] over the blanks after the artist;
    [rest] is [title_clean[remaining_pos:]]. *)
Fixpoint skip_after_artist (rest : str) (remaining_pos : nat) : nat :=
  match rest with
  | [] => remaining_pos
  | c :: rest' =>
      if char_in c [SPACE; TAB]
         || str_in (firstn 2 rest)
              [ [SPACE; HYPHEN]; [SPACE; EN_DASH]; [SPACE; EM_DASH];
                lit " :"; lit " |"; lit " /" ]
      then skip_after_artist rest' (S remaining_pos)
      else remaining_pos
  end.

Section TitleCascade.

Context {case : CaseOps}.

Definition artist_variants (artist_name : str) : list str :=
  [artist_name; str_lower artist_name; str_upper artist_name; str_title artist_name].

(** Variant 1, start of the title: ["Artist - Title"]. *)
Definition match_at_start (title_clean artist_name sep : str) : option str :=
  first_match
    (fun pattern =>
       if startswith title_clean pattern
       then Some (strip (skipn (length pattern) title_clean))
       else None)
    (map (fun a => a ++ sep) (artist_variants artist_name)).

(** Variant 1, end of the title: ["Title - Artist"]. *)
Definition match_at_end (title_clean artist_name sep : str) : option str :=
  first_match
    (fun pattern =>
       if endswith title_clean pattern
       then Some (strip (firstn (length title_clean - length pattern) title_clean))
       else None)
    (map (fun a => sep ++ a) (artist_variants artist_name)).

Definition separator_match (title_clean artist_name : str) : option str :=
  first_match
    (fun sep =>
       match match_at_start title_clean artist_name sep with
       | Some s => Some s
       | None => match_at_end title_clean artist_name sep
       end)
    separators.

(** Variant 2: the title starts with the artist, whatever the case. *)
Definition prefix_match (title_clean artist_name : str) : option str :=
  let title_lower := str_lower title_clean in
  let artist_lower := str_lower artist_name in
  if startswith title_lower artist_lower then
    let remaining_pos :=
      skip_after_artist (skipn (length artist_name) title_clean)
                        (length artist_name) in
    if remaining_pos <? length title_clean
    then Some (strip_leading LEADING_SEPARATORS
                 (strip (skipn remaining_pos title_clean)))
    else None
  else None.

(** The last attempt of the artist block: split at the first separator
    found.  [artist_lower] is bound by variant 2 only; reading it unbound
    raises. *)
Fixpoint split_match (title_clean : str) (artist_lower : option str)
    (seps : list str) : exn (option str) :=
  match seps with
  | [] => Return None
  | sep :: seps' =>
      if contains title_clean sep then
        match split1 title_clean sep with
        | [p1; p2] =>
            let part1 := strip p1 in
            let part2 := strip p2 in
            match artist_lower with
            | None => Raise UnboundLocalError
            | Some artist_lower =>
                if str_eqb (str_lower part1) artist_lower then Return (Some part2)
                else if (length part1 <? 30) && (length part1 <? length part2)
                     then Return (Some part2)
                     else split_match title_clean (Some artist_lower) seps'
            end
        | _ => split_match title_clean artist_lower seps'
        end
      else split_match title_clean artist_lower seps'
  end.

(** The block under [if artist_name:]; gives [song_title]. *)
Definition remove_artist (title_clean artist_name : str) : exn str :=
  let song_title := title_clean in
  match separator_match title_clean artist_name with
  | Some s =>
      (* found_and_removed = True, artist_lower unbound *)
      if str_eqb s title_clean
      then exn_bind (split_match title_clean None separators)
             (fun r => Return (match r with Some s' => s' | None => s end))
      else Return s
  | None =>
      let artist_lower := str_lower artist_name in
      let '(song_title, found_and_removed) :=
        match prefix_match title_clean artist_name with
        | Some s => (s, true)
        | None => (song_title, false)
        end in
      if negb found_and_removed || str_eqb song_title title_clean
      then exn_bind (split_match title_clean (Some artist_lower) separators)
             (fun r => Return (match r with Some s' => s' | None => song_title end))
      else Return song_title
  end.

(** The general approach: the split at the separator found furthest to the
    right, among those whose parts have the expected shape. *)
Definition best_split_step (title_clean : str) (st : option str * Z) (sep : str)
    : option str * Z :=
  let '(best_match, best_position) := st in
  if contains title_clean sep then
    match split1 title_clean sep, find title_clean sep with
    | [p1; p2], Some index =>
        let part1 := strip p1 in
        let part2 := strip p2 in
        if (length part1 <? length part2) || (length part1 <? 20) then
          if (best_position <? Z.of_nat index)%Z
          then (Some part2, Z.of_nat index)
          else st
        else st
    | _, _ => st
    end
  else st.

Definition best_split (title_clean : str) : option str :=
  fst (fold_left (best_split_step title_clean) separators (None, (-1)%Z)).

(** The forced removal: everything after the first separator found. *)
Definition forced_split (title_clean : str) : option str :=
  first_match
    (fun sep =>
       if contains title_clean sep then
         match split1 title_clean sep with
         | [_; p2] => Some (strip p2)
         | _ => None
         end
       else None)
    separators.

(** The final check: the artist is still inside the derived title. *)
Definition remove_artist_substring (title_clean artist_name song_title : str) : str :=
  if nonempty artist_name
     && contains (str_lower song_title) (str_lower artist_name)
     && negb (str_eqb song_title title_clean)
  then
    match split1 song_title artist_name with
    | [p0; p1] =>
        let remaining := strip_leading LEADING_SEPARATORS_SPACE (strip (p0 ++ p1)) in
        if nonempty remaining then remaining else song_title
    | _ => song_title
    end
  else song_title.

(** Lines 156-302: [song_title] from [title_clean] and [artist_name]. *)
Definition derive_song_title (title_clean artist_name : str) : exn str :=
  exn_bind
    (if nonempty artist_name then remove_artist title_clean artist_name
     else Return title_clean)
    (fun song_title =>
       let song_title :=
         if str_eqb song_title title_clean then
           match best_split title_clean with
           | Some ((_ :: _) as best_match) => best_match
           | _ => song_title
           end
         else song_title in
       let song_title :=
         if nonempty artist_name && str_eqb song_title title_clean then
           match forced_split title_clean with
           | Some s => s
           | None => song_title
           end
         else song_title in
       Return (remove_artist_substring title_clean artist_name song_title)).

(** Lines 140-312: [new_title]; [None] is Python's [None]. *)
Definition compute_new_title (metadata : dict) (original_filename : option str)
    (speed_factor : float) : exn (option str) :=
  let speed_tag := speed_tag speed_factor in
  let original_title := dict_get metadata (lit "title") [] in
  if nonempty original_title then
    let title_clean := strip_speed_tags original_title in
    let artist_name := strip (dict_get metadata (lit "artist") []) in
    exn_bind (derive_song_title title_clean artist_name)
      (fun song_title => Return (Some (song_title ++ speed_tag)))
  else
    match original_filename with
    | Some ((_ :: _) as original_filename) =>
        let stem_clean := strip_speed_tags (path_stem original_filename) in
        Return (Some (stem_clean ++ speed_tag))
    | _ => Return None
    end.

End TitleCascade.

(** [value.replace('\\', '\\\\').replace(':', '\\:').replace('=', '\\=')] *)
Definition escape (value : str) : str :=
  replace (replace (replace value [BACKSLASH] [BACKSLASH; BACKSLASH])
                   (lit ":") (BACKSLASH :: lit ":"))
          (lit "=") (BACKSLASH :: lit "=").

(** Lines 317-334: the [-metadata] arguments.  The loop extends the list
    once per tag kept; the new title comes last. *)
Definition metadata_params {case : CaseOps} (metadata : dict) (new_title : option str)
    : list str :=
  let metadata_params :=
    fold_left
      (fun acc kv =>
         let '(key, value) := kv in
         if nonempty value then
           if negb (str_eqb (str_lower key) (lit "title"))
           then acc ++ [lit "-metadata"; key ++ lit "=" ++ escape value]
           else acc
         else acc)
      metadata [] in
  match new_title with
  | Some ((_ :: _) as new_title) =>
      metadata_params ++ [lit "-metadata"; lit "title=" ++ escape new_title]
  | _ => metadata_params
  end.

Definition MP3_PARAMS : list str :=
  [lit "-acodec"; lit "libmp3lame"; lit "-q:a"; lit "2";
   lit "-id3v2_version"; lit "3"; lit "-write_id3v2"; lit "1"].

Definition params_map : list (str * list str) :=
  [ (lit ".mp3", MP3_PARAMS);
    (lit ".m4a", [lit "-acodec"; lit "aac"; lit "-b:a"; lit "192k"]);
    (lit ".ogg", [lit "-acodec"; lit "libvorbis"; lit "-q:a"; lit "5"]);
    (lit ".flac", [lit "-acodec"; lit "flac"; lit "-compression_level"; lit "5"]);
    (lit ".wav", [lit "-acodec"; lit "pcm_s16le"]);
    (lit ".opus", [lit "-acodec"; lit "libopus"; lit "-b:a"; lit "128k"]);
    (lit ".aac", [lit "-acodec"; lit "aac"; lit "-b:a"; lit "192k"]) ].

Fixpoint lookup {A} (m : list (str * A)) (k : str) (default : A) : A :=
  match m with
  | [] => default
  | (k', v) :: m' => if str_eqb k' k then v else lookup m' k default
  end.

Definition _get_codec_params {case : CaseOps} (extension : str) : list str :=
  let extension := str_lower extension in
  lookup params_map extension MP3_PARAMS.

Definition PROBE_PREFIX : list str :=
  [lit "ffprobe"; lit "-v"; lit "error"].

Definition sample_rate_probe (file_path : str) : list str :=
  PROBE_PREFIX ++
  [lit "-select_streams"; lit "a:0"; lit "-show_entries"; lit "stream=sample_rate";
   lit "-of"; lit "default=noprint_wrappers=1:nokey=1"; file_path].

Definition tags_probe (file_path : str) : list str :=
  PROBE_PREFIX ++
  [lit "-show_entries"; lit "format_tags=all"; lit "-of"; lit "json"; file_path].

(** [_get_sample_rate]: one ffprobe run; every failure becomes [None]. *)
Definition _get_sample_rate (w : world) (file_path : str) : M (option Z) :=
  subprocess_run (sample_rate_probe file_path) ;;;
  ret (probe_sample_rate w file_path).

(** [_get_metadata]: one ffprobe run; every failure becomes the empty dict. *)
Definition _get_metadata (w : world) (file_path : str) : M dict :=
  subprocess_run (tags_probe file_path) ;;;
  ret (probe_tags w file_path).

(** [current_sr] after the fallback to 44100. *)
Definition current_sr_or_default (sr : option Z) : Z :=
  match sr with Some r => r | None => 44100%Z end.

(** [filter_complex] *)
Definition filter_complex (new_sample_rate current_sr : Z) : str :=
  lit "asetrate=" ++ str_of_int new_sample_rate
  ++ lit ",aresample=" ++ str_of_int current_sr.

(** [int(current_sr * speed_factor)] *)
Definition new_sample_rate (current_sr : Z) (speed_factor : float) : exn Z :=
  match int_mul_float current_sr speed_factor with
  | None => Raise OverflowError
  | Some product =>
      match int_of_float product with
      | Some n => Return n
      | None => Raise (match product with S754_nan => ValueError | _ => OverflowError end)
      end
  end.

(** The ffmpeg command of [process_audio]. *)
Definition ffmpeg_cmd (input_path filter_complex : str) (current_sr : Z)
    (metadata_params codec_params : list str) (output_path : str) : list str :=
  [lit "ffmpeg"; lit "-i"; input_path; lit "-map_metadata"; lit "-1";
   lit "-af"; filter_complex; lit "-ar"; str_of_int current_sr]
  ++ metadata_params ++ codec_params ++ [lit "-y"; output_path].

(** [subprocess.run(cmd, ..., timeout=300)] on ffmpeg. *)
Definition run_ffmpeg (w : world) (cmd : list str) : M Z :=
  subprocess_run cmd ;;;
  match ffmpeg w cmd with
  | Exited returncode => ret returncode
  | TimedOut => raise TimeoutExpired
  | NotStarted => raise OSError
  end.

(** [process_audio]; the result is the bool the source returns. *)
Definition process_audio {case : CaseOps} (w : world) (input_path : str)
    (speed_factor : float) (output_path : str) (original_filename : option str)
    : M bool :=
  if negb (path_exists w input_path) then ret false
  else
    try_except
      (let output_ext := str_lower (path_suffix output_path) in
       let codec_params := _get_codec_params output_ext in
       sr <- _get_sample_rate w input_path ;;
       let current_sr := current_sr_or_default sr in
       new_sample_rate <- lift (new_sample_rate current_sr speed_factor) ;;
       let filter_complex := filter_complex new_sample_rate current_sr in
       metadata <- _get_metadata w input_path ;;
       new_title <- lift (compute_new_title metadata original_filename speed_factor) ;;
       let metadata_params := metadata_params metadata new_title in
       let cmd := ffmpeg_cmd input_path filter_complex current_sr
                    metadata_params codec_params output_path in
       returncode <- run_ffmpeg w cmd ;;
       if negb (returncode =? 0)%Z then ret false
       else if negb (output_nonempty w output_path) then ret false
       else ret true)
      (fun _ => ret false).

Definition f_100 : float := Eval vm_compute in binary_normalize prec emax 100 0 false.

(** [get_output_filename] (lines 463-486; the source has it at module
    level, after the class body).  It has no handler of its own: an
    exception of [int] leaves it. *)
Definition get_output_filename (original_filename : str) (speed_factor : float)
    : exn str :=
  let stem := path_stem original_filename in
  let suffix := path_suffix original_filename in
  let speed_tag := speed_tag speed_factor in
  let stem_clean := strip_speed_tags stem in
  let new_stem := stem_clean ++ speed_tag in
  match int_of_float (fmul (fsub speed_factor f_1_0) f_100) with
  | None => Raise (match speed_factor with S754_nan => ValueError | _ => OverflowError end)
  | Some speed_percent =>
      let speed_str :=
        if negb (speed_percent =? 0)%Z
        then lit " " ++ str_of_int_signed speed_percent ++ lit "%"
        else [] in
      Return (new_stem ++ speed_str ++ suffix)
  end.

Definition playable_formats : list str :=
  [lit ".mp3"; lit ".ogg"; lit ".m4a"; lit ".aac"].

(** [is_telegram_playable_format] *)
Definition is_telegram_playable_format {case : CaseOps} (file_path : str) : bool :=
  let extension := str_lower (path_suffix file_path) in
  str_in extension playable_formats.



(** What follows every ffmpeg run: the exit code, then the output file. *)
Definition check_result (w : world) (returncode : Z) (output_path : str) : M bool :=
  if negb (returncode =? 0)%Z then ret false
  else if negb (output_nonempty w output_path) then ret false
  else ret true.


(** [convert_to_mp3_for_telegram], lines 512-517: every non-empty tag, the
    title among them. *)
Definition convert_metadata_params (metadata : dict) : list str :=
  fold_left
    (fun acc kv =>
       let '(key, value) := kv in
       if nonempty value
       then acc ++ [lit "-metadata"; key ++ lit "=" ++ escape value]
       else acc)
    metadata [].



End AudioProcessor.
Export AudioProcessor.

(* ================================================================== *)
(** * bot.py: the decisions the handlers take on names and types *)

Module Bot.

Definition video_exts : list str :=
  [lit ".mp4"; lit ".avi"; lit ".mov"; lit ".mkv"; lit ".webm"; lit ".flv";
   lit ".wmv"; lit ".m4v"; lit ".3gp"].

Definition audio_exts : list str :=
  [lit ".mp3"; lit ".wav"; lit ".flac"; lit ".ogg"; lit ".m4a"; lit ".aac";
   lit ".wma"; lit ".opus"; lit ".amr"].

(** [handle_audio], the test on the extension (lines 140-152 and 155-165):
    [None] when the file is turned down, else [is_video]. *)
Definition classify_by_extension {case : CaseOps} (file_name : str) : option bool :=
  let ext := str_lower (path_suffix file_name) in
  if negb (str_in ext (audio_exts ++ video_exts)) then None
  else Some (str_in ext video_exts).

(** [handle_audio], the branch of a document (lines 130-165). *)
Definition classify_document {case : CaseOps} (file_name : str)
    (mime_type : option str) : option bool :=
  match mime_type with
  | Some ((_ :: _) as mime_type) =>
      let mime_lower := str_lower mime_type in
      let is_video := contains mime_lower (lit "video") in
      if negb (contains mime_lower (lit "audio") || contains mime_lower (lit "video"))
      then classify_by_extension file_name
      else Some is_video
  | _ => classify_by_extension file_name
  end.

(** [handle_audio], lines 211-214: the name a video is carried on under. *)
Definition video_file_name (file_name : str) : str :=
  path_stem file_name ++ lit ".mp3".

(** [TEMP_DIR / name] for a name that holds no slash. *)
Definition in_temp_dir (temp_dir name : str) : str := temp_dir ++ [SLASH] ++ name.

(** [process_audio_file], lines 332-336: the name of the downloaded file. *)
Definition input_file_name (file_id : str) (file_path : option str)
    (file_name : str) (is_video : bool) : str :=
  let original_ext :=
    match file_path with
    | Some ((_ :: _) as file_path) => path_suffix file_path
    | _ => path_suffix file_name
    end in
  let original_ext :=
    if negb (nonempty original_ext)
    then (if is_video then lit ".mp4" else lit ".mp3")
    else original_ext in
  lit "input_"
  ++ replace (replace file_id [SLASH] (lit "_")) [BACKSLASH] (lit "_")
  ++ original_ext.

(** [process_audio_file], line 390: the name of the MP3 made for playing. *)
Definition mp3_file_name (output_path : str) : str :=
  path_stem output_path ++ lit ".mp3".

End Bot.
Export Bot.

(* ================================================================== *)
(** * cleanup.py *)

Module Cleanup.

(** One entry of the directory, with what the file system answers for it:
    [stat] is [None] when [stat()] raises, [unlink_ok] is [false] when
    [unlink()] raises. *)
Record entry := {
  entry_name : str;
  is_file : bool;
  stat : option (float * Z);   (* st_mtime, st_size *)
  unlink_ok : bool
}.

(** [x > n] for a float and an int: Python compares the exact values. *)
Definition float_gt_int (x : float) (n : Z) : bool :=
  match x with
  | S754_nan => false
  | S754_infinity s => negb s
  | S754_zero _ => (n <? 0)%Z
  | S754_finite s m e =>
      (n * 2 ^ Z.max 0 (- e) <? cond_Zopp s (Z.pos m) * 2 ^ Z.max 0 e)%Z
  end.

(** The loop of lines 31-42.  The result is the entries left in the
    directory, [deleted_count] and [total_size].  An exception ends the
    loop: the entry it came from and the entries after it stay. *)
Fixpoint cleanup_loop (current_time : float) (max_age_seconds : Z)
    (entries : list entry) (deleted_count total_size : Z)
    : list entry * Z * Z :=
  match entries with
  | [] => ([], deleted_count, total_size)
  | file_path :: rest =>
      if is_file file_path then
        match stat file_path with
        | None => (entries, deleted_count, total_size)
        | Some (st_mtime, st_size) =>
            let file_age := fsub current_time st_mtime in
            if float_gt_int file_age max_age_seconds then
              if unlink_ok file_path
              then cleanup_loop current_time max_age_seconds rest
                     (deleted_count + 1)%Z (total_size + st_size)%Z
              else (entries, deleted_count, total_size)
            else
              let '(kept, c, s) :=
                cleanup_loop current_time max_age_seconds rest
                             deleted_count total_size in
              (file_path :: kept, c, s)
        end
      else
        let '(kept, c, s) :=
          cleanup_loop current_time max_age_seconds rest deleted_count total_size in
        (file_path :: kept, c, s)
  end.

(** [cleanup_old_files]; [temp_dir] is [None] when the directory does not
    exist, else its entries in the order [iterdir] gives them. *)
Definition cleanup_old_files (temp_dir : option (list entry)) (current_time : float)
    (max_age_hours : Z) : option (list entry) * Z * Z :=
  match temp_dir with
  | None => (None, 0%Z, 0%Z)
  | Some entries =>
      let max_age_seconds := (max_age_hours * 3600)%Z in
      let '(kept, deleted_count, total_size) :=
        cleanup_loop current_time max_age_seconds entries 0 0 in
      (Some kept, deleted_count, total_size)
  end.

End Cleanup.
Export Cleanup.


(* ================================================================== *)
(** * Notions used to state the properties *)

(** The number of positions of [s] at which [p] starts. *)
Fixpoint occurrences (p s : str) : nat :=
  (if startswith s p then 1 else 0)
  + match s with
    | [] => 0
    | _ :: s' => occurrences p s'
    end.

(** [old] has no border: no proper non-empty suffix of it is a prefix. *)
Definition border_free (old : str) : Prop :=
  forall d, 0 < d < length old -> startswith old (skipn d old) = false.

(** One of the two strings is a prefix of the other. *)
Definition comparable (x y : str) : bool := startswith x y || startswith y x.

(** No occurrence of [old] can overlap an occurrence of [q]: no proper
    suffix of [old] is comparable with [q], no suffix of [q] with [old]. *)
Definition apart (old q : str) : Prop :=
  (forall d, 0 < d < length old -> comparable q (skipn d old) = false)
  /\ (forall d, d < length q -> comparable (skipn d q) old = false).

Definition PAREN : char := 40%N.   (* the opening parenthesis *)

(** A finite float is [(-1)^s * m * 2^e].  [n] is its integer part: the
    integer next to it on the side of zero. *)
Definition is_integer_part (x : float) (n : Z) : Prop :=
  match x with
  | S754_zero _ => n = 0%Z
  | S754_finite s m e =>
      exists k, n = cond_Zopp s k /\
                (0 <= k)%Z /\
                (k * 2 ^ Z.max 0 (- e) <= Z.pos m * 2 ^ Z.max 0 e
                 < (k + 1) * 2 ^ Z.max 0 (- e))%Z
  | _ => False
  end.

(** [n] is an integer nearest to the float: at most one half away.  This is
    what [round] gives, whichever way it breaks ties. *)
Definition is_nearest_integer (x : float) (n : Z) : Prop :=
  match x with
  | S754_zero _ => n = 0%Z
  | S754_finite s m e =>
      (2 * Z.abs (cond_Zopp s (Z.pos m) * 2 ^ Z.max 0 e - n * 2 ^ Z.max 0 (- e))
       <= 2 ^ Z.max 0 (- e))%Z
  | _ => False
  end.

(** The failure kinds the description of the pipeline speaks of. *)
Inductive error_kind :=
| InputNotFound | TranscodeTimeout | TranscodeFailed | EmptyOutput.

(** The tag assignments as the description words them: every source tag
    with a non-empty value and a key other than [title], whatever its case;
    then the one new title, when there is one. *)
Definition is_title_key {case : CaseOps} (key : str) : bool :=
  str_eqb (str_lower key) (lit "title").

Definition source_assignments {case : CaseOps} (metadata : dict) : list str :=
  flat_map
    (fun kv => [lit "-metadata"; fst kv ++ lit "=" ++ escape (snd kv)])
    (filter (fun kv => nonempty (snd kv) && negb (is_title_key (fst kv))) metadata).

Definition title_assignment (new_title : option str) : list str :=
  match new_title with
  | Some t => if nonempty t then [lit "-metadata"; lit "title=" ++ escape t] else []
  | None => []
  end.

(** The source tags other than the title. *)
Definition without_title {case : CaseOps} (metadata : dict) : dict :=
  filter (fun kv => negb (is_title_key (fst kv))) metadata.

(** Worlds for the examples: a file with two tags that transcodes well, the
    same with an ffmpeg that fails, and a world without the input file. *)
Definition example_tags : dict :=
  [ (lit "title", lit "Artist Name - Track Title");
    (lit "artist", lit "Artist Name") ].

Definition world_ok : world := {|
  path_exists := fun _ => true;
  probe_sample_rate := fun _ => Some 44100%Z;
  probe_tags := fun _ => example_tags;
  ffmpeg := fun _ => Exited 0;
  output_nonempty := fun _ => true
|}.

Definition world_ffmpeg_fails : world := {|
  path_exists := fun _ => true;
  probe_sample_rate := fun _ => Some 44100%Z;
  probe_tags := fun _ => example_tags;
  ffmpeg := fun _ => Exited 1;
  output_nonempty := fun _ => false
|}.

Definition world_missing : world := {|
  path_exists := fun _ => false;
  probe_sample_rate := fun _ => Some 44100%Z;
  probe_tags := fun _ => example_tags;
  ffmpeg := fun _ => Exited 0;
  output_nonempty := fun _ => true
|}.

(* ================================================================== *)
(** * Notions for the further properties *)

(** The characters [escape] guards, and what one pass would make of a
    character: a backslash in front of a guarded one. *)
Definition is_special (c : char) : bool :=
  N.eqb c BACKSLASH || N.eqb c 58 || N.eqb c 61.

Definition escape_char (c : char) : str :=
  if is_special c then [BACKSLASH; c] else [c].

(** The ffmpeg command of [process_audio] for the new rate [n] and the new
    title [new_title]. *)
Definition process_audio_cmd {case : CaseOps} (w : world) (input_path output_path : str)
    (n : Z) (new_title : option str) : list str :=
  let current_sr := current_sr_or_default (probe_sample_rate w input_path) in
  ffmpeg_cmd input_path (filter_complex n current_sr) current_sr
    (metadata_params (probe_tags w input_path) new_title)
    (_get_codec_params (str_lower (path_suffix output_path)))
    output_path.

(** [s] stands in [t] as one piece. *)
Definition substring (s t : str) : Prop := exists l r, t = l ++ s ++ r.

(** The text holds a speed annotation. *)
Definition has_annotation (s : str) : bool :=
  contains s SLOWED || contains s SPEED_UP.

(** A speed annotation cut in two, with the artist between the halves. *)
Definition wedge_forms (artist_name : str) : list str :=
  flat_map
    (fun ann => map (fun k => firstn k ann ++ artist_name ++ skipn k ann)
                    (seq 1 (length ann - 1)))
    [SLOWED; SPEED_UP].

(** The text holds a speed annotation with the artist wedged inside it:
    cutting the artist out would close it up. *)
Definition artist_wedged (s artist_name : str) : bool :=
  existsb (contains s) (wedge_forms artist_name).

(** No proper suffix of [old] is comparable with [q]: no occurrence of
    [old] can start before a [q] and run into it. *)
Definition left_apart (old q : str) : Prop :=
  forall d, 0 < d < length old -> comparable q (skipn d old) = false.

(** What [Path] keeps of the parts between slashes. *)
Definition is_component (part : str) : bool :=
  negb (str_eqb part []) && negb (str_eqb part [DOT]).

(** A regular file whose age is above the limit. *)
Definition expired (current_time : float) (max_age_seconds : Z) (e : entry) : bool :=
  is_file e
  && match stat e with
     | Some (st_mtime, _) => float_gt_int (fsub current_time st_mtime) max_age_seconds
     | None => false
     end.

(** The size [stat] reports, 0 when it reports nothing. *)
Definition size_of (e : entry) : Z :=
  match stat e with Some (_, st_size) => st_size | None => 0%Z end.

Definition sizes (entries : list entry) : Z :=
  fold_right (fun e acc => (size_of e + acc)%Z) 0%Z entries.

(** Nothing raises on this entry. *)
Definition answers (e : entry) : bool :=
  (negb (is_file e) || match stat e with Some _ => true | None => false end)
  && unlink_ok e.

(** A directory for the examples, seen at time 200000.0: a file last
    written at 0.0, a file last written at 199000.0, and a sub-directory. *)
Definition f_200000 : float :=
  Eval vm_compute in binary_normalize prec emax 200000 0 false.
Definition f_199000 : float :=
  Eval vm_compute in binary_normalize prec emax 199000 0 false.

Definition old_file : entry := {|
  entry_name := lit "input_1.mp3"; is_file := true;
  stat := Some (S754_zero false, 4096%Z); unlink_ok := true |}.
Definition young_file : entry := {|
  entry_name := lit "song (Slowed) -19%.mp3"; is_file := true;
  stat := Some (f_199000, 1024%Z); unlink_ok := true |}.
Definition sub_directory : entry := {|
  entry_name := lit "cache"; is_file := false;
  stat := Some (S754_zero false, 64%Z); unlink_ok := false |}.

Definition example_directory : list entry := [old_file; young_file; sub_directory].

(** Unfolds the monad of the operations that run processes. *)
Ltac run_monad :=
  cbv beta iota zeta delta
    [try_except bind _get_sample_rate _get_metadata subprocess_run ret lift
     run_ffmpeg raise check_result].

(* ================================================================== *)
(** * Facts about the string built-ins *)

(** The float constants are the doubles the literals denote: the quotients
    [8/10], [12/10], [3/4] and [1/2], correctly rounded. *)
Lemma float_literals :
  float_of_int 1 = Some f_1_0
  /\ option_map (fun x => SFdiv prec emax x f_100) (float_of_int 80) = Some f_0_8
  /\ option_map (fun x => SFdiv prec emax x f_100) (float_of_int 120) = Some f_1_2
  /\ option_map (fun x => SFdiv prec emax x f_100) (float_of_int 75) = Some f_0_75
  /\ option_map (fun x => SFdiv prec emax x f_100) (float_of_int 50) = Some f_0_5.
Proof. repeat split; vm_compute; reflexivity. Qed.

Section StringFacts.

Lemma str_eqb_eq (a b : str) : str_eqb a b = true <-> a = b.
Proof.
  revert b; induction a as [|x a IH]; intros [|y b]; simpl; split;
    try congruence; try reflexivity.
  - intros H. apply andb_true_iff in H as [H1 H2].
    apply N.eqb_eq in H1. apply IH in H2. congruence.
  - intros H. injection H as -> ->.
    rewrite N.eqb_refl. simpl. now apply IH.
Qed.

Lemma str_eqb_refl (a : str) : str_eqb a a = true.
Proof. now apply str_eqb_eq. Qed.

Lemma str_eqb_length_neq (a b : str) :
  length a <> length b -> str_eqb a b = false.
Proof.
  intros H. destruct (str_eqb a b) eqn:E; [|reflexivity].
  apply str_eqb_eq in E. subst. contradiction.
Qed.

Lemma startswith_spec (s p : str) :
  startswith s p = true <-> exists r, s = p ++ r.
Proof.
  revert s; induction p as [|y p IH]; intros s.
  - destruct s; simpl; split; eauto.
  - destruct s as [|x s]; simpl.
    + split; [discriminate | intros [r Hr]; discriminate].
    + rewrite andb_true_iff, N.eqb_eq, IH. split.
      * intros [-> [r ->]]. now exists r.
      * intros [r Hr]. injection Hr as -> ->. eauto.
Qed.

Lemma startswith_app (s p r : str) :
  startswith s p = true -> startswith (s ++ r) p = true.
Proof.
  rewrite !startswith_spec. intros [q ->]. exists (q ++ r). now rewrite app_assoc.
Qed.

Lemma startswith_self_app (p r : str) : startswith (p ++ r) p = true.
Proof. apply startswith_spec. now exists r. Qed.

Lemma startswith_length (s p : str) :
  startswith s p = true -> length p <= length s.
Proof.
  rewrite startswith_spec. intros [r ->]. rewrite length_app. lia.
Qed.

Lemma endswith_length (s p : str) :
  endswith s p = true -> length p <= length s.
Proof.
  unfold endswith. intros H. apply startswith_length in H.
  now rewrite !length_rev in H.
Qed.

Lemma lstrip_suffix (s : str) : exists l, s = l ++ lstrip s.
Proof.
  induction s as [|c s [l IH]]; simpl.
  - now exists [].
  - destruct (is_space c).
    + exists (c :: l). simpl. now f_equal.
    + now exists [].
Qed.

Lemma rstrip_prefix (s : str) : exists r, s = rstrip s ++ r.
Proof.
  unfold rstrip. destruct (lstrip_suffix (rev s)) as [l Hl].
  exists (rev l). rewrite <- rev_app_distr, <- Hl. now rewrite rev_involutive.
Qed.

(** [strip] cuts a string out of the middle of its argument. *)
Lemma strip_middle (s : str) : exists l r, s = l ++ strip s ++ r.
Proof.
  unfold strip. destruct (lstrip_suffix s) as [l Hl].
  destruct (rstrip_prefix (lstrip s)) as [r Hr].
  exists l, r. now rewrite <- Hr.
Qed.

Lemma strip_length (s : str) : length (strip s) <= length s.
Proof.
  destruct (strip_middle s) as (l & r & H).
  rewrite H at 2. rewrite !length_app. lia.
Qed.

Lemma strip_incl (s : str) : incl (strip s) s.
Proof.
  destruct (strip_middle s) as (l & r & H). intros c Hc.
  rewrite H. apply in_or_app. right. apply in_or_app. now left.
Qed.

Lemma firstn_incl (n : nat) (s : str) : incl (firstn n s) s.
Proof.
  intros c Hc. rewrite <- (firstn_skipn n s). apply in_or_app. now left.
Qed.

Lemma skipn_incl (n : nat) (s : str) : incl (skipn n s) s.
Proof.
  intros c Hc. rewrite <- (firstn_skipn n s). apply in_or_app. now right.
Qed.

Lemma first_match_some {A B} (f : A -> option B) (xs : list A) (b : B) :
  first_match f xs = Some b -> exists x, In x xs /\ f x = Some b.
Proof.
  induction xs as [|x xs IH]; simpl; [discriminate|].
  destruct (f x) eqn:E.
  - intros H. injection H as ->. eauto.
  - intros H. destruct (IH H) as (y & Hy & Hf). eauto.
Qed.

Lemma find_eq (s p : str) :
  find s p = if startswith s p then Some 0
             else match s with
                  | [] => None
                  | _ :: s' => option_map S (find s' p)
                  end.
Proof. destruct s; reflexivity. Qed.

Lemma find_some (s p : str) (i : nat) :
  find s p = Some i -> startswith (skipn i s) p = true /\ i <= length s.
Proof.
  revert i; induction s as [|c s IH]; intros i; rewrite find_eq.
  - destruct (startswith [] p) eqn:E; [|discriminate].
    intros H. injection H as <-. split; [exact E | simpl; lia].
  - destruct (startswith (c :: s) p) eqn:E.
    + intros H. injection H as <-. split; [exact E | simpl; lia].
    + destruct (find s p) as [j|] eqn:F; simpl; [|discriminate].
      intros H. injection H as <-.
      destruct (IH j eq_refl) as [H1 H2]. split; [exact H1 | lia].
Qed.

(** The parts of a split come from the string that is split. *)
Lemma split1_incl (s sep p : str) : In p (split1 s sep) -> incl p s.
Proof.
  unfold split1. destruct (find s sep) as [i|]; simpl.
  - intros [<-|[<-|[]]]; [apply firstn_incl | apply skipn_incl].
  - intros [<-|[]]. apply incl_refl.
Qed.

(** [strip_leading] runs its loop to the end: the result is empty or starts
    with a character outside [chars]. *)
Lemma strip_leading_loop_exits (chars : str) (fuel : nat) (s : str) :
  length s <= fuel ->
  match strip_leading_loop chars fuel s with
  | [] => True
  | c :: _ => char_in c chars = false
  end.
Proof.
  revert s; induction fuel as [|fuel IH]; intros s Hlen; simpl.
  - destruct s; [exact I | simpl in Hlen; lia].
  - destruct s as [|c rest]; [exact I|].
    destruct (char_in c chars) eqn:E.
    + apply IH. pose proof (strip_length rest). simpl in Hlen. lia.
    + exact E.
Qed.

Lemma strip_leading_exits (chars s : str) :
  match strip_leading chars s with
  | [] => True
  | c :: _ => char_in c chars = false
  end.
Proof. apply strip_leading_loop_exits. lia. Qed.

Lemma strip_leading_loop_incl (chars : str) (fuel : nat) (s : str) :
  incl (strip_leading_loop chars fuel s) s.
Proof.
  revert s; induction fuel as [|fuel IH]; intros s; simpl; [apply incl_refl|].
  destruct s as [|c rest]; [apply incl_refl|].
  destruct (char_in c chars); [|apply incl_refl].
  intros x Hx. right. apply strip_incl. now apply IH.
Qed.

Lemma strip_leading_incl (chars s : str) : incl (strip_leading chars s) s.
Proof. apply strip_leading_loop_incl. Qed.

End StringFacts.

(* ================================================================== *)
(** * The title cascade never raises, and only rearranges the title *)

Section CascadeFacts.

Context {case : CaseOps}.

Lemma separators_nonempty (sep : str) : In sep separators -> 1 <= length sep.
Proof.
  unfold separators. simpl.
  intros H. repeat (destruct H as [<-|H]; [simpl; lia|]). destruct H.
Qed.

Lemma match_at_start_some (title_clean artist_name sep s : str) :
  In sep separators ->
  match_at_start title_clean artist_name sep = Some s ->
  length s < length title_clean /\ incl s title_clean.
Proof.
  intros Hsep H. unfold match_at_start in H.
  apply first_match_some in H as (pattern & Hin & H).
  destruct (startswith title_clean pattern) eqn:E; [|discriminate].
  injection H as <-.
  apply in_map_iff in Hin as (a & <- & _).
  apply startswith_length in E.
  assert (Hn : 1 <= length (a ++ sep)).
  { pose proof (separators_nonempty _ Hsep). rewrite length_app. lia. }
  split.
  - pose proof (strip_length (skipn (length (a ++ sep)) title_clean)) as Hs.
    rewrite length_skipn in Hs. lia.
  - eapply incl_tran; [apply strip_incl | apply skipn_incl].
Qed.

Lemma match_at_end_some (title_clean artist_name sep s : str) :
  In sep separators ->
  match_at_end title_clean artist_name sep = Some s ->
  length s < length title_clean /\ incl s title_clean.
Proof.
  intros Hsep H. unfold match_at_end in H.
  apply first_match_some in H as (pattern & Hin & H).
  destruct (endswith title_clean pattern) eqn:E; [|discriminate].
  injection H as <-.
  apply in_map_iff in Hin as (a & <- & _).
  apply endswith_length in E.
  assert (Hn : 1 <= length (sep ++ a)).
  { pose proof (separators_nonempty _ Hsep). rewrite length_app. lia. }
  split.
  - pose proof (strip_length
      (firstn (length title_clean - length (sep ++ a)) title_clean)) as Hs.
    rewrite length_firstn in Hs. lia.
  - eapply incl_tran; [apply strip_incl | apply firstn_incl].
Qed.

Lemma separator_match_some (title_clean artist_name s : str) :
  separator_match title_clean artist_name = Some s ->
  length s < length title_clean /\ incl s title_clean.
Proof.
  intros H. unfold separator_match in H.
  apply first_match_some in H as (sep & Hsep & H).
  destruct (match_at_start title_clean artist_name sep) as [s'|] eqn:E.
  - injection H as <-. eapply match_at_start_some; eauto.
  - eapply match_at_end_some; eauto.
Qed.

Lemma prefix_match_incl (title_clean artist_name s : str) :
  prefix_match title_clean artist_name = Some s -> incl s title_clean.
Proof.
  unfold prefix_match.
  destruct (startswith _ _); [|discriminate].
  destruct (_ <? _); [|discriminate].
  intros H. injection H as <-.
  eapply incl_tran; [apply strip_leading_incl|].
  eapply incl_tran; [apply strip_incl | apply skipn_incl].
Qed.

Lemma split_match_bound (title_clean artist_lower : str) (seps : list str) :
  exists r, split_match title_clean (Some artist_lower) seps = Return r
            /\ forall s, r = Some s -> incl s title_clean.
Proof.
  induction seps as [|sep seps IH]; simpl.
  - exists None. split; [reflexivity | discriminate].
  - destruct (contains title_clean sep); [|exact IH].
    destruct (split1 title_clean sep) as [|p1 [|p2 [|p3 ps]]] eqn:E; try exact IH.
    assert (Hp2 : incl (strip p2) title_clean).
    { eapply incl_tran; [apply strip_incl|].
      apply (split1_incl title_clean sep). rewrite E. simpl. auto. }
    destruct (str_eqb _ artist_lower).
    + eexists. split; [reflexivity|]. intros s Hs. injection Hs as <-. exact Hp2.
    + destruct (_ && _); [|exact IH].
      eexists. split; [reflexivity|]. intros s Hs. injection Hs as <-. exact Hp2.
Qed.

Lemma remove_artist_returns (title_clean artist_name : str) :
  exists s, remove_artist title_clean artist_name = Return s /\ incl s title_clean.
Proof.
  unfold remove_artist.
  destruct (separator_match title_clean artist_name) as [s|] eqn:E.
  - apply separator_match_some in E as [Hlen Hincl].
    rewrite str_eqb_length_neq by lia. eauto.
  - destruct (split_match_bound title_clean (str_lower artist_name) separators)
      as (r & Hr & Hincl).
    destruct (prefix_match title_clean artist_name) as [s|] eqn:P.
    + apply prefix_match_incl in P. cbv beta iota zeta delta [negb orb].
      destruct (str_eqb s title_clean); [|eauto].
      rewrite Hr. cbv beta iota delta [exn_bind]. destruct r as [s'|]; eauto.
    + cbv beta iota zeta delta [negb orb]. rewrite Hr.
      cbv beta iota delta [exn_bind].
      destruct r as [s'|]; eauto using incl_refl.
Qed.

Lemma best_split_step_incl (title_clean : str) (st : option str * Z) (sep : str) :
  (forall s, fst st = Some s -> incl s title_clean) ->
  forall s, fst (best_split_step title_clean st sep) = Some s -> incl s title_clean.
Proof.
  intros Hst. unfold best_split_step. destruct st as [best_match best_position].
  destruct (contains title_clean sep); [|exact Hst].
  destruct (split1 title_clean sep) as [|p1 [|p2 [|p3 ps]]] eqn:E; try exact Hst.
  destruct (find title_clean sep) as [index|]; [|exact Hst].
  destruct (_ || _); [|exact Hst].
  destruct (_ <? _)%Z; [|exact Hst].
  simpl. intros s Hs. injection Hs as <-.
  eapply incl_tran; [apply strip_incl|].
  apply (split1_incl title_clean sep). rewrite E. simpl. auto.
Qed.

Lemma best_split_incl (title_clean s : str) :
  best_split title_clean = Some s -> incl s title_clean.
Proof.
  unfold best_split.
  assert (H : forall seps st,
             (forall s, fst st = Some s -> incl s title_clean) ->
             forall s, fst (fold_left (best_split_step title_clean) seps st) = Some s ->
                       incl s title_clean).
  { induction seps as [|sep seps IH]; intros st Hst; simpl; [exact Hst|].
    apply IH. now apply best_split_step_incl. }
  apply H. simpl. discriminate.
Qed.

Lemma forced_split_incl (title_clean s : str) :
  forced_split title_clean = Some s -> incl s title_clean.
Proof.
  unfold forced_split. intros H.
  apply first_match_some in H as (sep & _ & H).
  destruct (contains title_clean sep); [|discriminate].
  destruct (split1 title_clean sep) as [|p1 [|p2 [|p3 ps]]] eqn:E; try discriminate.
  injection H as <-.
  eapply incl_tran; [apply strip_incl|].
  apply (split1_incl title_clean sep). rewrite E. simpl. auto.
Qed.

Lemma remove_artist_substring_incl (title_clean artist_name song_title : str) :
  incl (remove_artist_substring title_clean artist_name song_title) song_title.
Proof.
  unfold remove_artist_substring.
  destruct (_ && _); [|apply incl_refl].
  destruct (split1 song_title artist_name) as [|p0 [|p1 [|p2 ps]]] eqn:E;
    try apply incl_refl.
  destruct (nonempty _); [|apply incl_refl].
  eapply incl_tran; [apply strip_leading_incl|].
  eapply incl_tran; [apply strip_incl|].
  apply incl_app; apply (split1_incl song_title artist_name);
    rewrite E; simpl; auto.
Qed.

(** [derive_song_title] always gives a title, made of characters of
    [title_clean]. *)
Lemma derive_song_title_returns (title_clean artist_name : str) :
  exists s, derive_song_title title_clean artist_name = Return s
            /\ incl s title_clean.
Proof.
  unfold derive_song_title.
  assert (H : exists s0,
             (if nonempty artist_name then remove_artist title_clean artist_name
              else Return title_clean) = Return s0 /\ incl s0 title_clean).
  { destruct (nonempty artist_name);
      [apply remove_artist_returns | eauto using incl_refl]. }
  destruct H as (s0 & -> & H0). cbv beta iota delta [exn_bind].
  eexists. split; [reflexivity|].
  eapply incl_tran; [apply remove_artist_substring_incl|].
  match goal with
  | |- incl (if ?c then _ else _) _ => destruct c
  end.
  - destruct (forced_split title_clean) as [s|] eqn:F.
    + now apply forced_split_incl.
    + destruct (str_eqb s0 title_clean); [|exact H0].
      destruct (best_split title_clean) as [[|c b]|] eqn:B; try exact H0.
      now apply best_split_incl.
  - destruct (str_eqb s0 title_clean); [|exact H0].
    destruct (best_split title_clean) as [[|c b]|] eqn:B; try exact H0.
    now apply best_split_incl.
Qed.

Lemma compute_new_title_returns (metadata : dict) (original_filename : option str)
    (speed_factor : float) :
  exists new_title,
    compute_new_title metadata original_filename speed_factor = Return new_title.
Proof.
  unfold compute_new_title.
  destruct (nonempty _).
  - destruct (derive_song_title_returns
                (strip_speed_tags (dict_get metadata (lit "title") []))
                (strip (dict_get metadata (lit "artist") []))) as (s & -> & _).
    cbv beta iota delta [exn_bind]. eauto.
  - destruct original_filename as [[|c fn]|]; eauto.
Qed.

End CascadeFacts.

(* ================================================================== *)
(** * Facts about [replace] *)

Section ReplaceFacts.

Variables old new : str.

Lemma replace_from_cons (skip : nat) (c : char) (s : str) :
  replace_from old new skip (c :: s) =
  match skip with
  | S k => replace_from old new k s
  | O => if startswith (c :: s) old
         then new ++ replace_from old new (length old - 1) s
         else c :: replace_from old new 0 s
  end.
Proof. reflexivity. Qed.

(** A pending skip consumes exactly that many characters. *)
Lemma replace_from_skip (x b : str) :
  replace_from old new (length x) (x ++ b) = replace_from old new 0 b.
Proof.
  induction x as [|c x IH]; [reflexivity|].
  simpl length. rewrite <- app_comm_cons, replace_from_cons. exact IH.
Qed.

End ReplaceFacts.

Lemma replace_from_at (p new b : str) :
  1 <= length p ->
  replace_from p new 0 (p ++ b) = new ++ replace_from p new 0 b.
Proof.
  intros Hp. destruct p as [|c p']; [simpl in Hp; lia|].
  pose proof (startswith_self_app (c :: p') b) as Hs.
  rewrite <- app_comm_cons in *. rewrite replace_from_cons, Hs.
  replace (length (c :: p') - 1) with (length p') by (simpl; lia).
  now rewrite replace_from_skip.
Qed.

Section BorderFree.

Variables old new : str.

Lemma border_free_check :
  forallb (fun d => negb (startswith old (skipn d old))) (seq 1 (length old - 1)) = true ->
  border_free old.
Proof.
  intros H d Hd. rewrite forallb_forall in H.
  specialize (H d). rewrite in_seq in H.
  apply negb_true_iff, H. lia.
Qed.

Hypothesis old_nonempty : 1 <= length old.
Hypothesis old_border_free : border_free old.

(** No occurrence of [old] starts in [a] and runs into the [old] behind it. *)
Lemma no_straddle (a b : str) :
  1 <= length a ->
  startswith a old = false ->
  startswith (a ++ old ++ b) old = false.
Proof.
  intros Ha Hno. destruct (startswith (a ++ old ++ b) old) eqn:E; [|reflexivity].
  exfalso. apply startswith_spec in E as [r E].
  apply app_eq_app in E as [l [[E1 _]|[E1 E2]]].
  - rewrite E1, startswith_self_app in Hno. discriminate.
  - destruct l as [|x l].
    + rewrite app_nil_r in E1. subst a.
      rewrite <- (app_nil_r old) in Hno at 1.
      rewrite startswith_self_app in Hno. discriminate.
    + assert (Hlen : length old = length a + length (x :: l))
        by (rewrite E1 at 1; apply length_app).
      assert (Hl : skipn (length a) old = x :: l).
      { rewrite E1 at 1. rewrite skipn_app, skipn_all, Nat.sub_diag. reflexivity. }
      assert (Hpre : startswith old (x :: l) = true).
      { apply app_eq_app in E2 as [l2 [[E3 _]|[E3 _]]].
        - apply startswith_spec. now exists l2.
        - apply (f_equal (@length char)) in E3. rewrite length_app in E3.
          simpl in Hlen, E3. lia. }
      rewrite <- Hl, old_border_free in Hpre; [discriminate|].
      simpl in Hlen. lia.
Qed.

(** Every occurrence of [old] is replaced, wherever it stands: the text
    before it and the text after it are rewritten on their own. *)
Lemma replace_from_occurrence (a b : str) (skip : nat) :
  skip <= length a ->
  replace_from old new skip (a ++ old ++ b) =
  replace_from old new skip a ++ new ++ replace_from old new 0 b.
Proof.
  revert skip; induction a as [|c a IH]; intros skip Hskip.
  - simpl in Hskip. assert (skip = 0) as -> by lia.
    simpl. now apply replace_from_at.
  - rewrite <- app_comm_cons, !replace_from_cons.
    destruct skip as [|k].
    + destruct (startswith (c :: a) old) eqn:E.
      * rewrite app_comm_cons, (startswith_app _ _ _ E).
        rewrite IH, app_assoc; [reflexivity|].
        apply startswith_length in E. simpl in E. lia.
      * rewrite app_comm_cons, no_straddle by (simpl; lia || exact E).
        rewrite IH by lia. reflexivity.
    + apply IH. simpl in Hskip. lia.
Qed.

Lemma replace_occurrence (a b : str) :
  replace (a ++ old ++ b) old new = replace a old new ++ new ++ replace b old new.
Proof. apply replace_from_occurrence. lia. Qed.

End BorderFree.

(** Text without the character [c2] holds no occurrence of a pattern whose
    second character is [c2]. *)
Section NoMarker.

Variables (c1 c2 : char) (rest new : str).

Lemma startswith_no_marker (x : char) (b t : str) :
  ~ In c2 b ->
  startswith t [c2] = false ->
  startswith (x :: b ++ t) (c1 :: c2 :: rest) = false.
Proof.
  intros Hb Ht. simpl.
  apply andb_false_iff. right.
  destruct b as [|y b]; simpl.
  - destruct t as [|y t]; [reflexivity|]. simpl in Ht |- *.
    destruct (N.eqb y c2); [|reflexivity].
    destruct t; discriminate.
  - destruct (N.eqb_spec y c2) as [->|Hne]; [|reflexivity].
    exfalso. apply Hb. now left.
Qed.

Lemma replace_no_marker (b t : str) :
  ~ In c2 b ->
  startswith t [c2] = false ->
  replace_from (c1 :: c2 :: rest) new 0 (b ++ t)
  = b ++ replace_from (c1 :: c2 :: rest) new 0 t.
Proof.
  intros Hb Ht. induction b as [|x b IH]; [reflexivity|].
  rewrite <- !app_comm_cons, replace_from_cons.
  rewrite startswith_no_marker by (auto; intros H; apply Hb; now right).
  rewrite IH; [reflexivity|]. intros H. apply Hb. now right.
Qed.

Lemma occurrences_no_marker (b t : str) :
  ~ In c2 b ->
  startswith t [c2] = false ->
  occurrences (c1 :: c2 :: rest) (b ++ t) = occurrences (c1 :: c2 :: rest) t.
Proof.
  intros Hb Ht. induction b as [|x b IH]; [reflexivity|].
  rewrite <- app_comm_cons. cbn [occurrences].
  rewrite startswith_no_marker by (auto; intros H; apply Hb; now right).
  apply IH. intros H. apply Hb. now right.
Qed.

End NoMarker.

(* ================================================================== *)
(** * Facts about [process_audio] *)

Section ProcessFacts.

Context {case : CaseOps}.

(** The loop of lines 321-328 adds the assignment of each tag it keeps. *)
Lemma metadata_loop (metadata : dict) (acc : list str) :
  fold_left
    (fun acc kv =>
       let '(key, value) := kv in
       if nonempty value then
         if negb (str_eqb (str_lower key) (lit "title"))
         then acc ++ [lit "-metadata"; key ++ lit "=" ++ escape value]
         else acc
       else acc)
    metadata acc
  = acc ++ source_assignments metadata.
Proof.
  revert acc; induction metadata as [|[key value] metadata IH]; intros acc.
  - simpl. now rewrite app_nil_r.
  - cbn [fold_left]. rewrite IH. unfold source_assignments, is_title_key.
    cbn [filter fst snd].
    destruct (nonempty value); cbn [andb]; [|reflexivity].
    destruct (str_eqb (str_lower key) (lit "title")); cbn [negb]; [reflexivity|].
    cbn [flat_map fst snd]. now rewrite <- app_assoc.
Qed.

Lemma metadata_params_eq (metadata : dict) (new_title : option str) :
  metadata_params metadata new_title =
  source_assignments metadata ++ title_assignment new_title.
Proof.
  unfold metadata_params. rewrite metadata_loop. cbn [app].
  destruct new_title as [[|c t]|]; cbn [title_assignment nonempty];
    now rewrite ?app_nil_r.
Qed.

Lemma source_assignments_without_title (metadata : dict) :
  source_assignments (without_title metadata) = source_assignments metadata.
Proof.
  unfold source_assignments, without_title. f_equal.
  induction metadata as [|[key value] metadata IH]; [reflexivity|].
  cbn [filter fst snd].
  destruct (is_title_key key) eqn:E; cbn [negb andb filter fst snd];
    rewrite ?E; cbn [negb]; rewrite ?andb_true_r, ?andb_false_r.
  - exact IH.
  - destruct (nonempty value); now rewrite IH.
Qed.

(** When the input exists and the new rate can be computed, the processor
    runs the two probes and then ffmpeg, with this command. *)
Lemma process_audio_trace (w : world) (input_path : str) (speed_factor : float)
    (output_path : str) (original_filename : option str)
    (n : Z) (new_title : option str) :
  path_exists w input_path = true ->
  new_sample_rate (current_sr_or_default (probe_sample_rate w input_path))
                  speed_factor = Return n ->
  compute_new_title (probe_tags w input_path) original_filename speed_factor
    = Return new_title ->
  snd (process_audio w input_path speed_factor output_path original_filename [])
  = [ Run (sample_rate_probe input_path);
      Run (tags_probe input_path);
      Run (ffmpeg_cmd input_path
             (filter_complex n (current_sr_or_default (probe_sample_rate w input_path)))
             (current_sr_or_default (probe_sample_rate w input_path))
             (metadata_params (probe_tags w input_path) new_title)
             (_get_codec_params (str_lower (path_suffix output_path)))
             output_path) ].
Proof.
  intros Hex Hrate Htitle. unfold process_audio. rewrite Hex.
  cbv beta iota zeta delta
    [negb try_except bind _get_sample_rate _get_metadata subprocess_run ret
     lift run_ffmpeg raise app].
  rewrite Hrate. cbv beta iota. rewrite Htitle. cbv beta iota.
  destruct (ffmpeg w _) as [returncode| |]; cbv beta iota; try reflexivity.
  destruct (returncode =? 0)%Z; [|reflexivity].
  destruct (output_nonempty w output_path); reflexivity.
Qed.

End ProcessFacts.

(* ================================================================== *)
(** * The properties of the pipeline *)

(** C1. The tag assignments [process_audio] passes to ffmpeg are exactly: one
    assignment for every source tag whose value is non-empty and whose key,
    in lower case, is not [title], in the order of the source, followed by
    the single assignment of the newly derived title when there is a
    non-empty one.  They stand in the command between the output sample rate
    and the codec parameters.  The old title has no part in them: a source
    tag set that differs in its title tags only gives the same assignments. *)
Theorem C1_output_tag_set :
  forall (case : CaseOps) (w : world) (input_path : str) (speed_factor : float)
         (output_path : str) (original_filename : option str)
         (n : Z) (new_title : option str),
    path_exists w input_path = true ->
    new_sample_rate (current_sr_or_default (probe_sample_rate w input_path))
                    speed_factor = Return n ->
    compute_new_title (probe_tags w input_path) original_filename speed_factor
      = Return new_title ->
    let metadata := probe_tags w input_path in
    let current_sr := current_sr_or_default (probe_sample_rate w input_path) in
    let tags := source_assignments metadata ++ title_assignment new_title in
    metadata_params metadata new_title = tags
    /\ snd (process_audio w input_path speed_factor output_path original_filename [])
       = [ Run (sample_rate_probe input_path);
           Run (tags_probe input_path);
           Run (ffmpeg_cmd input_path (filter_complex n current_sr) current_sr tags
                  (_get_codec_params (str_lower (path_suffix output_path)))
                  output_path) ]
    /\ (forall metadata',
          without_title metadata' = without_title metadata ->
          metadata_params metadata' new_title = tags).
Proof.
  intros case w input_path speed_factor output_path original_filename n new_title
         Hex Hrate Htitle metadata current_sr tags.
  split; [apply metadata_params_eq|]. split.
  - rewrite (process_audio_trace w input_path speed_factor output_path
               original_filename n new_title Hex Hrate Htitle).
    now rewrite metadata_params_eq.
  - intros metadata' H. rewrite metadata_params_eq. unfold tags. f_equal.
    rewrite <- (source_assignments_without_title metadata'), H.
    apply source_assignments_without_title.
Qed.

Lemma C1_output_tag_set_witness :
  path_exists world_ok (lit "in.mp3") = true
  /\ new_sample_rate (current_sr_or_default (probe_sample_rate world_ok (lit "in.mp3")))
                     f_0_8 = Return 35280%Z
  /\ compute_new_title (probe_tags world_ok (lit "in.mp3")) None f_0_8
     = Return (Some (lit "Track Title (Slowed)"))
  /\ metadata_params example_tags (Some (lit "Track Title (Slowed)"))
     = [ lit "-metadata"; lit "artist=Artist Name";
         lit "-metadata"; lit "title=Track Title (Slowed)" ].
Proof.
  assert (H1 : path_exists world_ok (lit "in.mp3") = true) by reflexivity.
  assert (H2 : new_sample_rate
                 (current_sr_or_default (probe_sample_rate world_ok (lit "in.mp3")))
                 f_0_8 = Return 35280%Z) by (vm_compute; reflexivity).
  assert (H3 : compute_new_title (probe_tags world_ok (lit "in.mp3")) None f_0_8
               = Return (Some (lit "Track Title (Slowed)")))
    by (vm_compute; reflexivity).
  split; [exact H1|]. split; [exact H2|]. split; [exact H3|].
  destruct (C1_output_tag_set ascii_case world_ok (lit "in.mp3") f_0_8
              (lit "out.mp3") None 35280%Z (Some (lit "Track Title (Slowed)"))
              H1 H2 H3) as [H _].
  change (probe_tags world_ok (lit "in.mp3")) with example_tags in H.
  rewrite H. vm_compute. reflexivity.
Defined.

(** C2. With the title tag "Artist Name - Track Title" and the artist tag
    "Artist Name", the separator match (whatever the case mapping) takes the
    text on the other side of "Artist Name - ", and the new title is
    "Track Title" followed by the speed tag of the factor. *)
Theorem C2_artist_separator_title :
  forall (metadata : dict) (original_filename : option str) (speed_factor : float),
    dict_get metadata (lit "title") [] = lit "Artist Name - Track Title" ->
    dict_get metadata (lit "artist") [] = lit "Artist Name" ->
    (forall case : CaseOps,
        @separator_match case (lit "Artist Name - Track Title") (lit "Artist Name")
        = Some (lit "Track Title"))
    /\ compute_new_title metadata original_filename speed_factor
       = Return (Some (lit "Track Title" ++ speed_tag speed_factor)).
Proof.
  intros metadata original_filename speed_factor Ht Ha. split.
  - intros case. vm_compute. reflexivity.
  - unfold compute_new_title. rewrite Ht, Ha.
    change (nonempty (lit "Artist Name - Track Title")) with true.
    cbv beta iota.
    replace (derive_song_title (strip_speed_tags (lit "Artist Name - Track Title"))
               (strip (lit "Artist Name")))
      with (Return (lit "Track Title")) by (vm_compute; reflexivity).
    reflexivity.
Qed.

Lemma C2_artist_separator_title_witness :
  dict_get example_tags (lit "title") [] = lit "Artist Name - Track Title"
  /\ dict_get example_tags (lit "artist") [] = lit "Artist Name"
  /\ compute_new_title example_tags None f_1_2
     = Return (Some (lit "Track Title" ++ speed_tag f_1_2)).
Proof.
  split; [reflexivity|]. split; [reflexivity|].
  apply (C2_artist_separator_title example_tags None f_1_2); reflexivity.
Defined.

(** C3. Naming is not idempotent: for "song.mp3" at factor 0.5 the name is
    "song (Slowed) -50%.mp3"; naming that again at 0.5 keeps the old
    percentage in the stem and adds a second one.  The speed tag is removed
    and added back; the percentage is only ever added. *)
Theorem C3_percentage_added_again :
  get_output_filename (lit "song.mp3") f_0_5
  = Return (lit "song (Slowed) -50%.mp3")
  /\ get_output_filename (lit "song (Slowed) -50%.mp3") f_0_5
     = Return (lit "song -50% (Slowed) -50%.mp3").
Proof. split; vm_compute; reflexivity. Qed.

Lemma int_of_float_integer_part (x : float) (n : Z) :
  int_of_float x = Some n -> is_integer_part x n.
Proof.
  destruct x as [s|s| |s m e]; unfold int_of_float, is_integer_part;
    try discriminate.
  - intros H. now injection H as <-.
  - intros H. injection H as <-.
    destruct e as [|q|q].
    + exists (Z.pos m * 2 ^ 0)%Z.
      change (Z.max 0 (- 0)) with 0%Z. change (Z.max 0 0) with 0%Z.
      rewrite !Z.pow_0_r. repeat split; lia.
    + exists (Z.pos m * 2 ^ Z.pos q)%Z.
      change (Z.max 0 (- Z.pos q)) with 0%Z.
      change (Z.max 0 (Z.pos q)) with (Z.pos q).
      rewrite Z.pow_0_r.
      assert (0 < 2 ^ Z.pos q)%Z by (apply Z.pow_pos_nonneg; lia).
      repeat split; nia.
    + exists (Z.pos m / 2 ^ Z.pos q)%Z.
      change (Z.max 0 (- Z.neg q)) with (Z.pos q).
      change (Z.max 0 (Z.neg q)) with 0%Z.
      rewrite Z.pow_0_r.
      assert (Hd : (0 < 2 ^ Z.pos q)%Z) by (apply Z.pow_pos_nonneg; lia).
      assert (0 <= Z.pos m / 2 ^ Z.pos q)%Z by (apply Z.div_pos; lia).
      pose proof (Z.mul_div_le (Z.pos m) _ Hd).
      pose proof (Z.mul_succ_div_gt (Z.pos m) _ Hd).
      repeat split; lia.
Qed.

(** C4, as the code has it.  The rate handed to [asetrate] is
    [int(current_sr * speed_factor)]: the binary64 product with the digits
    after the point dropped (its integer part, toward zero), not the product
    rounded.  It is the seventh argument of the ffmpeg command.  At 44100 Hz
    the factor 0.8 gives 35280 and the factor 1.2 gives 52920. *)
Theorem C4_new_rate_is_integer_part :
  forall (case : CaseOps) (w : world) (input_path : str) (speed_factor : float)
         (output_path : str) (original_filename : option str) (n : Z),
    path_exists w input_path = true ->
    new_sample_rate (current_sr_or_default (probe_sample_rate w input_path))
                    speed_factor = Return n ->
    let current_sr := current_sr_or_default (probe_sample_rate w input_path) in
    (exists product,
        int_mul_float current_sr speed_factor = Some product
        /\ is_integer_part product n)
    /\ (exists cmd,
          last (snd (process_audio w input_path speed_factor output_path
                       original_filename [])) (Run [])
          = Run cmd
          /\ nth 6 cmd [] = lit "asetrate=" ++ str_of_int n
                            ++ lit ",aresample=" ++ str_of_int current_sr)
    /\ new_sample_rate 44100 f_0_8 = Return 35280%Z
    /\ new_sample_rate 44100 f_1_2 = Return 52920%Z.
Proof.
  intros case w input_path speed_factor output_path original_filename n
         Hex Hrate current_sr.
  split; [|split; [|split; vm_compute; reflexivity]].
  - unfold new_sample_rate in Hrate. fold current_sr in Hrate.
    destruct (int_mul_float current_sr speed_factor) as [product|]; [|discriminate].
    exists product. split; [reflexivity|].
    apply int_of_float_integer_part.
    destruct (int_of_float product); [|discriminate]. congruence.
  - destruct (compute_new_title_returns (probe_tags w input_path)
                original_filename speed_factor) as [new_title Htitle].
    rewrite (process_audio_trace w input_path speed_factor output_path
               original_filename n new_title Hex Hrate Htitle).
    eexists. split; reflexivity.
Qed.

Lemma C4_new_rate_is_integer_part_witness :
  path_exists world_ok (lit "in.mp3") = true
  /\ new_sample_rate (current_sr_or_default (probe_sample_rate world_ok (lit "in.mp3")))
                     f_0_75 = Return 33075%Z
  /\ exists cmd,
       last (snd (process_audio world_ok (lit "in.mp3") f_0_75 (lit "out.mp3") None []))
            (Run [])
       = Run cmd
       /\ nth 6 cmd [] = lit "asetrate=" ++ str_of_int 33075
                         ++ lit ",aresample=" ++ str_of_int 44100.
Proof.
  assert (H1 : path_exists world_ok (lit "in.mp3") = true) by reflexivity.
  assert (H2 : new_sample_rate
                 (current_sr_or_default (probe_sample_rate world_ok (lit "in.mp3")))
                 f_0_75 = Return 33075%Z) by (vm_compute; reflexivity).
  split; [exact H1|]. split; [exact H2|].
  exact (proj1 (proj2 (C4_new_rate_is_integer_part ascii_case world_ok (lit "in.mp3")
                         f_0_75 (lit "out.mp3") None 33075%Z H1 H2))).
Defined.

(** C4, as it was worded, fails: at 11025 Hz and factor 0.75 the product is
    8268.75; the code keeps 8268, which is not a nearest integer (8269 is). *)
Lemma C4_rounding_counterexample :
  exists product,
    int_mul_float 11025 f_0_75 = Some product
    /\ new_sample_rate 11025 f_0_75 = Return 8268%Z
    /\ ~ is_nearest_integer product 8268
    /\ is_nearest_integer product 8269.
Proof.
  eexists. split; [vm_compute; reflexivity|].
  split; [vm_compute; reflexivity|].
  split; vm_compute; [intros H; apply H; reflexivity | discriminate].
Qed.

Lemma speed_tag_cases (speed_factor : float) :
  speed_tag speed_factor = SLOWED \/ speed_tag speed_factor = SPEED_UP
  \/ speed_tag speed_factor = [].
Proof.
  unfold speed_tag. destruct (flt speed_factor f_1_0); [now left|].
  destruct (flt f_1_0 speed_factor); [right; now left | right; now right].
Qed.

(** C5, as it was worded, fails: the removal is one pass of [replace], and
    what it leaves can close up into an annotation again.  The title
    "X (Slow (Slowed)ed) (Slowed)" ends in an annotation; its new title at
    factor 0.8 holds two, and at factor 1.0 still one.  The final check can
    do the same when it cuts the artist out of the middle of such a text:
    with the artist "ZZ", "B - X (SloZZwed) (Slowed)" gives two tags too. *)
Lemma C5_nested_annotation_counterexample :
  compute_new_title [ (lit "title", lit "X (Slow (Slowed)ed) (Slowed)") ] None f_0_8
  = Return (Some (lit "X (Slowed) (Slowed)"))
  /\ occurrences SLOWED (lit "X (Slowed) (Slowed)") = 2
  /\ compute_new_title [ (lit "title", lit "X (Slow (Slowed)ed) (Slowed)") ] None f_1_0
     = Return (Some (lit "X (Slowed)"))
  /\ occurrences SLOWED (lit "X (Slowed)") = 1
  /\ compute_new_title [ (lit "title", lit "B - X (SloZZwed) (Slowed)");
                         (lit "artist", lit "ZZ") ] None f_0_8
     = Return (Some (lit "X (Slowed) (Slowed)")).
Proof. repeat split; vm_compute; reflexivity. Qed.

(** C6. An empty derived title is accepted by the separator match: for the
    title "Artist:" and the artist "Artist" the pattern "Artist:" matches at
    the start, the rest is empty, and no later stage replaces it.  The new
    title is the bare speed tag at factor 0.8 and the empty string at 1.0,
    in which case no title is written at all.  The general approach and the
    final check do test their result for emptiness (the empty part found in
    "Song -" is turned down and the title kept), the separator match does
    not. *)
Theorem C6_empty_title_accepted :
  separator_match (lit "Artist:") (lit "Artist") = Some []
  /\ derive_song_title (lit "Artist:") (lit "Artist") = Return []
  /\ compute_new_title [ (lit "title", lit "Artist:"); (lit "artist", lit "Artist") ]
       None f_0_8
     = Return (Some (lit " (Slowed)"))
  /\ compute_new_title [ (lit "title", lit "Artist:"); (lit "artist", lit "Artist") ]
       None f_1_0
     = Return (Some [])
  /\ title_assignment (Some []) = []
  /\ best_split (lit "Song -") = Some []
  /\ derive_song_title (lit "Song -") [] = Return (lit "Song -").
Proof. repeat split; vm_compute; reflexivity. Qed.

(** C7. The final check finds the artist without regard to case but removes
    it with a case-sensitive split.  With the artist "Artist", the title
    "Foo - Bar Artist" becomes "Bar", while "Foo - Bar ARTIST" keeps the
    artist and becomes "Bar ARTIST". *)
Theorem C7_removal_is_case_sensitive :
  derive_song_title (lit "Foo - Bar Artist") (lit "Artist") = Return (lit "Bar")
  /\ derive_song_title (lit "Foo - Bar ARTIST") (lit "Artist")
     = Return (lit "Bar ARTIST")
  /\ contains (str_lower (lit "Bar ARTIST")) (str_lower (lit "Artist")) = true
  /\ remove_artist_substring (lit "Foo - Bar ARTIST") (lit "Artist") (lit "Bar ARTIST")
     = lit "Bar ARTIST".
Proof. repeat split; vm_compute; reflexivity. Qed.

(** C8, as the code has it.  When the input path does not exist,
    [process_audio] returns [False] and runs no external process: the trace
    is left as it was.  [False] is all it returns. *)
Theorem C8_missing_input :
  forall (case : CaseOps) (w : world) (input_path : str) (speed_factor : float)
         (output_path : str) (original_filename : option str) (t : list event),
    path_exists w input_path = false ->
    process_audio w input_path speed_factor output_path original_filename t
    = (Return false, t).
Proof.
  intros case w input_path speed_factor output_path original_filename t H.
  unfold process_audio. rewrite H. reflexivity.
Qed.

Lemma C8_missing_input_witness :
  path_exists world_missing (lit "gone.mp3") = false
  /\ process_audio world_missing (lit "gone.mp3") f_0_8 (lit "out.mp3") None []
     = (Return false, []).
Proof.
  split; [reflexivity|].
  apply (C8_missing_input ascii_case world_missing (lit "gone.mp3") f_0_8
           (lit "out.mp3") None []).
  reflexivity.
Defined.

(** C8, as it was worded, fails: the result carries no failure kind.  A
    missing input and a failed transcode give the same result, so nothing
    read off the result can call the one [InputNotFound] and the other
    [TranscodeFailed]. *)
Lemma C8_no_failure_kind_counterexample :
  fst (process_audio world_missing (lit "in.mp3") f_0_8 (lit "out.mp3") None [])
  = fst (process_audio world_ffmpeg_fails (lit "in.mp3") f_0_8 (lit "out.mp3") None [])
  /\ ~ exists classify : exn bool -> error_kind,
         classify (fst (process_audio world_missing (lit "in.mp3") f_0_8
                          (lit "out.mp3") None []))
         = InputNotFound
         /\ classify (fst (process_audio world_ffmpeg_fails (lit "in.mp3") f_0_8
                             (lit "out.mp3") None []))
            = TranscodeFailed.
Proof.
  assert (E : fst (process_audio world_missing (lit "in.mp3") f_0_8
                     (lit "out.mp3") None [])
              = fst (process_audio world_ffmpeg_fails (lit "in.mp3") f_0_8
                       (lit "out.mp3") None []))
    by (vm_compute; reflexivity).
  split; [exact E|].
  intros [classify [H1 H2]]. rewrite E in H1. congruence.
Qed.

(** C9. A file is directly playable exactly when its extension, in lower
    case, is one of .mp3, .ogg, .m4a and .aac; a .wav file is not, an .mp3
    file is. *)
Theorem C9_playable_formats :
  (forall (case : CaseOps) (file_path : str),
      is_telegram_playable_format file_path = true <->
      (str_lower (path_suffix file_path) = lit ".mp3"
       \/ str_lower (path_suffix file_path) = lit ".ogg"
       \/ str_lower (path_suffix file_path) = lit ".m4a"
       \/ str_lower (path_suffix file_path) = lit ".aac"))
  /\ path_suffix (lit "track.wav") = lit ".wav"
  /\ is_telegram_playable_format (lit "track.wav") = false
  /\ path_suffix (lit "track.mp3") = lit ".mp3"
  /\ is_telegram_playable_format (lit "track.mp3") = true.
Proof.
  split; [|repeat split; vm_compute; reflexivity].
  intros case file_path. unfold is_telegram_playable_format, str_in, playable_formats.
  cbn [existsb]. rewrite !orb_true_iff, !str_eqb_eq.
  split.
  - intros [H|[H|[H|[H|H]]]]; auto; discriminate.
  - intros [H|[H|[H|H]]]; auto.
Qed.

(** A block [q] that no occurrence of [old] can overlap is left alone by
    [replace], wherever it stands. *)
Section Apart.

Variables old new q : str.
Hypothesis old_q_apart : apart old q.

Lemma apart_check :
  forallb (fun d => negb (comparable q (skipn d old))) (seq 1 (length old - 1))
  && forallb (fun d => negb (comparable (skipn d q) old)) (seq 0 (length q)) = true ->
  apart old q.
Proof.
  intros H. apply andb_true_iff in H as [H1 H2].
  rewrite forallb_forall in H1, H2. split; intros d Hd.
  - apply negb_true_iff, H1, in_seq. lia.
  - apply negb_true_iff, H2, in_seq. lia.
Qed.

Lemma startswith_comparable (x b p : str) :
  startswith (x ++ b) p = true -> comparable x p = true.
Proof.
  intros H. apply startswith_spec in H as [r H].
  apply app_eq_app in H as [l [[E _]|[E _]]]; unfold comparable.
  - rewrite E, startswith_self_app. reflexivity.
  - rewrite E, startswith_self_app. apply orb_true_r.
Qed.

Lemma replace_from_block (l q' b : str) :
  q = l ++ q' ->
  replace_from old new 0 (q' ++ b) = q' ++ replace_from old new 0 b.
Proof.
  revert l; induction q' as [|c q' IH]; intros l Hq; [reflexivity|].
  rewrite <- app_comm_cons, replace_from_cons.
  destruct (startswith (c :: q' ++ b) old) eqn:E.
  - exfalso. rewrite app_comm_cons in E. apply startswith_comparable in E.
    destruct old_q_apart as [_ H2].
    specialize (H2 (length l)).
    rewrite Hq, skipn_app, skipn_all, Nat.sub_diag, length_app in H2.
    simpl in H2. rewrite H2 in E; [discriminate | lia].
  - rewrite <- app_comm_cons. f_equal.
    apply (IH (l ++ [c])). now rewrite <- app_assoc.
Qed.

Lemma no_straddle_block (a b : str) :
  1 <= length a ->
  startswith a old = false ->
  startswith (a ++ q ++ b) old = false.
Proof.
  intros Ha Hno. destruct (startswith (a ++ q ++ b) old) eqn:E; [|reflexivity].
  exfalso. apply startswith_spec in E as [r E].
  apply app_eq_app in E as [l [[E1 _]|[E1 E2]]].
  - rewrite E1, startswith_self_app in Hno. discriminate.
  - destruct l as [|x l].
    + rewrite app_nil_r in E1. subst a.
      rewrite <- (app_nil_r old) in Hno at 1.
      rewrite startswith_self_app in Hno. discriminate.
    + assert (Hlen : length old = length a + length (x :: l))
        by (rewrite E1 at 1; apply length_app).
      assert (Hl : skipn (length a) old = x :: l).
      { rewrite E1 at 1. rewrite skipn_app, skipn_all, Nat.sub_diag. reflexivity. }
      assert (Hc : comparable q (x :: l) = true).
      { apply (startswith_comparable q b). apply startswith_spec. now exists r. }
      destruct old_q_apart as [H1 _].
      rewrite <- Hl, H1 in Hc; [discriminate|]. simpl in Hlen. lia.
Qed.

Lemma replace_from_around_block (a b : str) (skip : nat) :
  skip <= length a ->
  replace_from old new skip (a ++ q ++ b) =
  replace_from old new skip a ++ q ++ replace_from old new 0 b.
Proof.
  revert skip; induction a as [|c a IH]; intros skip Hskip.
  - simpl in Hskip. assert (skip = 0) as -> by lia.
    simpl. now apply (replace_from_block []).
  - rewrite <- app_comm_cons, !replace_from_cons.
    destruct skip as [|k].
    + destruct (startswith (c :: a) old) eqn:E.
      * rewrite app_comm_cons, (startswith_app _ _ _ E).
        rewrite IH, app_assoc; [reflexivity|].
        apply startswith_length in E. simpl in E. lia.
      * rewrite app_comm_cons, no_straddle_block by (simpl; lia || exact E).
        rewrite IH by lia. reflexivity.
    + apply IH. simpl in Hskip. lia.
Qed.

End Apart.

Lemma SLOWED_border_free : border_free SLOWED.
Proof. apply border_free_check. vm_compute. reflexivity. Qed.

Lemma SPEED_UP_border_free : border_free SPEED_UP.
Proof. apply border_free_check. vm_compute. reflexivity. Qed.

Lemma SLOWED_SPEED_UP_apart : apart SLOWED SPEED_UP.
Proof. apply apart_check. vm_compute. reflexivity. Qed.

(** C10. Each pass of the stripping removes every occurrence of its
    annotation, wherever it stands: the text before an occurrence and the
    text after it are cleaned on their own and joined.  An occurrence of
    " (Speed Up)" comes through the " (Slowed)" pass untouched and is
    removed by its own pass.  So "My (Slowed) Song" loses its annotation in
    the middle before the new speed tag is added, as a title tag and as the
    stem of the fallback file name. *)
Theorem C10_every_occurrence_removed :
  (forall a b : str,
      replace (a ++ SLOWED ++ b) SLOWED [] = replace a SLOWED [] ++ replace b SLOWED [])
  /\ (forall a b : str,
        replace (a ++ SPEED_UP ++ b) SPEED_UP []
        = replace a SPEED_UP [] ++ replace b SPEED_UP [])
  /\ (forall a b : str,
        strip_speed_tags (a ++ SLOWED ++ b)
        = strip (replace (replace a SLOWED [] ++ replace b SLOWED []) SPEED_UP []))
  /\ (forall a b : str,
        strip_speed_tags (a ++ SPEED_UP ++ b)
        = strip (replace (replace a SLOWED []) SPEED_UP []
                 ++ replace (replace b SLOWED []) SPEED_UP []))
  /\ (forall speed_factor : float,
        compute_new_title [ (lit "title", lit "My (Slowed) Song") ] None speed_factor
        = Return (Some (lit "My Song" ++ speed_tag speed_factor)))
  /\ (forall speed_factor : float,
        compute_new_title [] (Some (lit "My (Slowed) Song.mp3")) speed_factor
        = Return (Some (lit "My Song" ++ speed_tag speed_factor))).
Proof.
  assert (P1 : forall a b : str,
             replace (a ++ SLOWED ++ b) SLOWED []
             = replace a SLOWED [] ++ replace b SLOWED []).
  { intros a b.
    apply (replace_occurrence SLOWED [] ltac:(simpl; lia) SLOWED_border_free). }
  assert (P2 : forall a b : str,
             replace (a ++ SPEED_UP ++ b) SPEED_UP []
             = replace a SPEED_UP [] ++ replace b SPEED_UP []).
  { intros a b.
    apply (replace_occurrence SPEED_UP [] ltac:(simpl; lia) SPEED_UP_border_free). }
  split; [exact P1|]. split; [exact P2|]. split; [|split; [|split]].
  - intros a b. unfold strip_speed_tags. now rewrite P1.
  - intros a b. unfold strip_speed_tags. f_equal.
    unfold replace at 2.
    rewrite (replace_from_around_block SLOWED [] SPEED_UP SLOWED_SPEED_UP_apart)
      by lia.
    apply P2.
  - intros speed_factor. unfold compute_new_title.
    change (dict_get [(lit "title", lit "My (Slowed) Song")] (lit "title") [])
      with (lit "My (Slowed) Song").
    change (nonempty (lit "My (Slowed) Song")) with true. cbv beta iota.
    replace (derive_song_title (strip_speed_tags (lit "My (Slowed) Song"))
               (strip (dict_get [(lit "title", lit "My (Slowed) Song")]
                         (lit "artist") [])))
      with (Return (lit "My Song")) by (vm_compute; reflexivity).
    reflexivity.
  - intros speed_factor. unfold compute_new_title.
    change (nonempty (dict_get [] (lit "title") [])) with false. cbv beta iota.
    replace (strip_speed_tags (path_stem (lit "My (Slowed) Song.mp3")))
      with (lit "My Song") by (vm_compute; reflexivity).
    reflexivity.
Qed.

(* ================================================================== *)
(** * Further properties: escaping *)

Lemma startswith_nil (s : str) : startswith s [] = true.
Proof. destruct s; reflexivity. Qed.

(** Replacing a one-character [old] rewrites character by character. *)
Lemma replace_char (s : str) (c : char) (new : str) :
  replace s [c] new = flat_map (fun x => if N.eqb x c then new else [x]) s.
Proof.
  unfold replace. induction s as [|x s IH]; [reflexivity|].
  rewrite replace_from_cons. cbn [startswith length Nat.sub flat_map].
  rewrite startswith_nil, andb_true_r.
  destruct (N.eqb x c); rewrite IH; reflexivity.
Qed.

Lemma escape_cons (x : char) (v : str) : escape (x :: v) = escape_char x ++ escape v.
Proof.
  unfold escape. change (lit ":") with [58%N]. change (lit "=") with [61%N].
  rewrite !replace_char.
  cbn [flat_map]. rewrite !flat_map_app. f_equal.
  unfold escape_char, is_special.
  destruct (N.eqb_spec x BACKSLASH) as [->|H1]; [reflexivity|].
  destruct (N.eqb_spec x 58) as [->|H2]; [reflexivity|].
  destruct (N.eqb_spec x 61) as [->|H3]; [reflexivity|].
  apply N.eqb_neq in H2, H3. cbn [flat_map app orb].
  rewrite H2. cbn [flat_map app]. now rewrite H3.
Qed.

(** X1. The three replacements of [escape] together put exactly one
    backslash in front of every backslash, colon and equals sign of the
    value and change nothing else. *)
Theorem escape_one_pass :
  forall value : str, escape value = flat_map escape_char value.
Proof.
  induction value as [|x v IH]; [reflexivity|].
  rewrite escape_cons, IH. reflexivity.
Qed.

(** X2. [escape] loses nothing: two values with the same escaped form are
    the same value. *)
Theorem escape_injective :
  forall a b : str, escape a = escape b -> a = b.
Proof.
  intros a b. rewrite !escape_one_pass. revert b.
  induction a as [|x a IH]; intros [|y b]; cbn [flat_map].
  - reflexivity.
  - unfold escape_char. destruct (is_special y); discriminate.
  - unfold escape_char. destruct (is_special x); discriminate.
  - unfold escape_char.
    destruct (is_special x) eqn:Sx, (is_special y) eqn:Sy; cbn [app]; intros H.
    + injection H as -> H. f_equal. now apply IH.
    + injection H as Hy _. subst y. discriminate.
    + injection H as Hx _. subst x. discriminate.
    + injection H as -> H. f_equal. now apply IH.
Qed.

Lemma escape_injective_witness :
  escape (lit "a=b:c") = escape (lit "a=b:c") /\ lit "a=b:c" = lit "a=b:c".
Proof.
  split; [reflexivity|].
  apply (escape_injective (lit "a=b:c") (lit "a=b:c")). reflexivity.
Defined.

(* ================================================================== *)
(** * Further properties: the codec table *)

Lemma lookup_cases {A} (m : list (str * A)) (k : str) (default : A) :
  lookup m k default = default \/ In (lookup m k default) (map snd m).
Proof.
  induction m as [|[k' v] m IH]; simpl; [now left|].
  destruct (str_eqb k' k); [right; now left|].
  destruct IH as [IH|IH]; [now left | right; now right].
Qed.

(** X3. Whatever the extension, the codec parameters start with [-acodec]
    and the name of an encoder: ffmpeg is never run without one. *)
Theorem codec_params_name_an_encoder :
  forall (case : CaseOps) (extension : str),
    exists encoder rest,
      _get_codec_params extension = lit "-acodec" :: encoder :: rest.
Proof.
  intros case extension. unfold _get_codec_params.
  destruct (lookup_cases params_map (str_lower extension) MP3_PARAMS) as [->| H].
  - unfold MP3_PARAMS. eauto.
  - revert H. generalize (lookup params_map (str_lower extension) MP3_PARAMS).
    intros l H. cbn [params_map map snd In] in H.
    repeat (destruct H as [<-|H]; [unfold MP3_PARAMS; eauto|]). destruct H.
Qed.

(* ================================================================== *)
(** * Further properties: the three operations that run ffmpeg *)


(** X6. [process_audio] runs at most three processes, in this order: the
    probe of the sample rate, the probe of the tags, ffmpeg.  Without the
    input file it runs none; when the new rate cannot be computed it stops
    after the first probe; otherwise it runs all three, ffmpeg once. *)
Theorem process_audio_processes :
  forall (case : CaseOps) (w : world) (input_path : str) (speed_factor : float)
         (output_path : str) (original_filename : option str) (t : list event),
    let t' := snd (process_audio w input_path speed_factor output_path
                     original_filename t) in
    let rate := new_sample_rate
                  (current_sr_or_default (probe_sample_rate w input_path))
                  speed_factor in
    (path_exists w input_path = false /\ t' = t)
    \/ (path_exists w input_path = true
        /\ (exists e, rate = Raise e)
        /\ t' = t ++ [Run (sample_rate_probe input_path)])
    \/ (path_exists w input_path = true
        /\ exists n new_title,
             rate = Return n
             /\ compute_new_title (probe_tags w input_path) original_filename
                  speed_factor = Return new_title
             /\ t' = t ++ [ Run (sample_rate_probe input_path);
                            Run (tags_probe input_path);
                            Run (process_audio_cmd w input_path output_path
                                   n new_title) ]).
Proof.
  intros case w input_path speed_factor output_path original_filename t t' rate.
  unfold t', process_audio.
  destruct (path_exists w input_path) eqn:Hex; cbn [negb]; [|left; auto].
  right. run_monad. fold rate.
  destruct rate as [n|e] eqn:Hrate; cbv beta iota.
  2: { left. split; [reflexivity|]. split; [eauto | reflexivity]. }
  right. split; [reflexivity|].
  destruct (compute_new_title_returns (probe_tags w input_path)
              original_filename speed_factor) as [nt Ht].
  exists n, nt. split; [reflexivity|]. split; [exact Ht|].
  rewrite Ht. cbv beta iota.
  fold (process_audio_cmd w input_path output_path n nt).
  rewrite <- !app_assoc. cbn [app].
  destruct (ffmpeg w _) as [returncode| |]; cbv beta iota; try reflexivity.
  destruct (returncode =? 0)%Z; cbn [negb]; [|reflexivity].
  destruct (output_nonempty w output_path); reflexivity.
Qed.


Lemma convert_metadata_loop (metadata : dict) (acc : list str) :
  fold_left
    (fun acc kv =>
       let '(key, value) := kv in
       if nonempty value
       then acc ++ [lit "-metadata"; key ++ lit "=" ++ escape value]
       else acc)
    metadata acc
  = acc ++ flat_map
             (fun kv => [lit "-metadata"; fst kv ++ lit "=" ++ escape (snd kv)])
             (filter (fun kv => nonempty (snd kv)) metadata).
Proof.
  revert acc; induction metadata as [|[key value] metadata IH]; intros acc.
  - simpl. now rewrite app_nil_r.
  - cbn [fold_left]. rewrite IH. cbn [filter fst snd].
    destruct (nonempty value); [|reflexivity].
    cbn [flat_map fst snd]. now rewrite <- app_assoc.
Qed.

(** X8. The conversion to MP3 carries every tag with a non-empty value, the
    title among them, in the order of the source; for a source without a
    title tag these are the assignments [process_audio] makes before it adds
    its new title. *)
Theorem convert_keeps_every_tag :
  forall (case : CaseOps) (metadata : dict),
    convert_metadata_params metadata
    = flat_map (fun kv => [lit "-metadata"; fst kv ++ lit "=" ++ escape (snd kv)])
        (filter (fun kv => nonempty (snd kv)) metadata)
    /\ (forall key value,
           In (key, value) metadata -> nonempty value = true ->
           In (key ++ lit "=" ++ escape value) (convert_metadata_params metadata))
    /\ convert_metadata_params (without_title metadata)
       = metadata_params metadata None.
Proof.
  intros case metadata.
  assert (E : forall md, convert_metadata_params md
              = flat_map (fun kv => [lit "-metadata"; fst kv ++ lit "=" ++ escape (snd kv)])
                  (filter (fun kv => nonempty (snd kv)) md)).
  { intros md. unfold convert_metadata_params. now rewrite convert_metadata_loop. }
  split; [apply E|]. split.
  - intros key value Hin Hv. rewrite E. apply in_flat_map.
    exists (key, value). split.
    + apply filter_In. now split.
    + cbn [fst snd]. right. now left.
  - rewrite E, metadata_params_eq. cbn [title_assignment]. rewrite app_nil_r.
    unfold source_assignments, without_title. f_equal.
    induction metadata as [|[key value] metadata IH]; [reflexivity|].
    cbn [filter fst snd].
    destruct (is_title_key key); cbn [negb filter fst snd];
      rewrite ?andb_true_r, ?andb_false_r; [exact IH|].
    destruct (nonempty value); now rewrite IH.
Qed.


(* ================================================================== *)
(** * Further properties: the new title *)

Lemma replace_from_nil_incl (old : str) (skip : nat) (s : str) :
  incl (replace_from old [] skip s) s.
Proof.
  revert skip; induction s as [|c s IH]; intros skip; [apply incl_refl|].
  rewrite replace_from_cons. destruct skip as [|k].
  - destruct (startswith (c :: s) old).
    + cbn [app]. apply incl_tl, IH.
    + apply incl_cons; [now left | apply incl_tl, IH].
  - apply incl_tl, IH.
Qed.

Lemma strip_speed_tags_incl (s : str) : incl (strip_speed_tags s) s.
Proof.
  unfold strip_speed_tags, replace.
  eapply incl_tran; [apply strip_incl|].
  eapply incl_tran; apply replace_from_nil_incl.
Qed.


Lemma last_in_or_default {A} (l : list A) (d : A) : last l d = d \/ In (last l d) l.
Proof.
  induction l as [|x l IH]; [now left|].
  destruct l as [|y l]; [right; now left|].
  destruct IH as [IH|IH]; [|right; now right].
  change (last (x :: y :: l) d) with (last (y :: l) d).
  destruct (exists_last (l:=y :: l) ltac:(discriminate)) as (l' & z & E).
  rewrite E, last_last. right. rewrite <- E. right. rewrite E.
  apply in_or_app. right. now left.
Qed.




(** X11. The cascade never raises (the unbound [artist_lower] is never
    read) and it invents nothing: every character of the derived song title
    is a character of the cleaned title. *)
Theorem title_cascade_only_removes :
  forall (case : CaseOps) (title_clean artist_name : str),
    exists song_title,
      derive_song_title title_clean artist_name = Return song_title
      /\ incl song_title title_clean.
Proof. intros case. apply derive_song_title_returns. Qed.

Lemma contains_app (l p r : str) : contains (l ++ p ++ r) p = true.
Proof.
  unfold contains. induction l as [|x l IH]; rewrite find_eq.
  - cbn [app]. now rewrite startswith_self_app.
  - destruct (startswith ((x :: l) ++ p ++ r) p); [reflexivity|].
    cbn [app]. destruct (find (l ++ p ++ r) p); [reflexivity | discriminate].
Qed.

Lemma startswith_contains (s a sep : str) :
  startswith s (a ++ sep) = true -> contains s sep = true.
Proof.
  intros H. apply startswith_spec in H as [r ->].
  rewrite <- app_assoc. apply contains_app.
Qed.

Lemma endswith_contains (s a sep : str) :
  endswith s (sep ++ a) = true -> contains s sep = true.
Proof.
  unfold endswith. intros H. apply startswith_spec in H as [r H].
  apply (f_equal (@rev char)) in H.
  rewrite rev_involutive, rev_app_distr, rev_involutive in H. subst s.
  apply contains_app.
Qed.

Lemma first_match_none {A B} (f : A -> option B) (xs : list A) :
  (forall x, In x xs -> f x = None) -> first_match f xs = None.
Proof.
  induction xs as [|x xs IH]; intros H; [reflexivity|].
  cbn [first_match]. rewrite (H x) by now left.
  apply IH. intros y Hy. apply H. now right.
Qed.

Section NoSeparator.

Context {case : CaseOps}.
Variable title_clean : str.
Hypothesis no_separator :
  forall sep, In sep separators -> contains title_clean sep = false.

Lemma separator_match_none (artist_name : str) :
  separator_match title_clean artist_name = None.
Proof.
  unfold separator_match. apply first_match_none. intros sep Hsep.
  specialize (no_separator sep Hsep).
  assert (S : match_at_start title_clean artist_name sep = None).
  { apply first_match_none. intros pattern Hp.
    apply in_map_iff in Hp as (a & <- & _).
    destruct (startswith title_clean (a ++ sep)) eqn:E; [|reflexivity].
    apply startswith_contains in E. congruence. }
  rewrite S. apply first_match_none. intros pattern Hp.
  apply in_map_iff in Hp as (a & <- & _).
  destruct (endswith title_clean (sep ++ a)) eqn:E; [|reflexivity].
  apply endswith_contains in E. congruence.
Qed.

Lemma split_match_none (artist_lower : option str) (seps : list str) :
  incl seps separators ->
  split_match title_clean artist_lower seps = Return None.
Proof.
  induction seps as [|sep seps IH]; intros H; [reflexivity|].
  cbn [split_match]. rewrite no_separator by (apply H; now left).
  apply IH. intros x Hx. apply H. now right.
Qed.

Lemma best_split_none : best_split title_clean = None.
Proof.
  unfold best_split.
  assert (H : forall seps st, incl seps separators ->
              fold_left (best_split_step title_clean) seps st = st).
  { induction seps as [|sep seps IH]; intros st Hs; [reflexivity|].
    cbn [fold_left]. unfold best_split_step at 2. destruct st as [m pos].
    rewrite no_separator by (apply Hs; now left).
    apply IH. intros x Hx. apply Hs. now right. }
  rewrite H by apply incl_refl. reflexivity.
Qed.

Lemma forced_split_none : forced_split title_clean = None.
Proof.
  unfold forced_split. apply first_match_none. intros sep Hsep.
  now rewrite no_separator.
Qed.

Lemma derive_without_separator (artist_name : str) :
  artist_name = []
  \/ startswith (str_lower title_clean) (str_lower artist_name) = false ->
  derive_song_title title_clean artist_name = Return title_clean.
Proof.
  intros Ha. unfold derive_song_title.
  assert (R : (if nonempty artist_name then remove_artist title_clean artist_name
               else Return title_clean) = Return title_clean).
  { destruct artist_name as [|c a]; [reflexivity|]. cbn [nonempty].
    destruct Ha as [Ha|Ha]; [discriminate|].
    unfold remove_artist. rewrite separator_match_none.
    unfold prefix_match. rewrite Ha.
    cbv beta iota zeta delta [negb orb].
    rewrite split_match_none by apply incl_refl. reflexivity. }
  rewrite R. cbv beta iota delta [exn_bind].
  rewrite (str_eqb_refl title_clean), best_split_none. cbv beta iota.
  rewrite (str_eqb_refl title_clean), forced_split_none.
  assert (E : (if nonempty artist_name && true then title_clean else title_clean)
              = title_clean) by (destruct (nonempty artist_name); reflexivity).
  rewrite E. unfold remove_artist_substring.
  rewrite (str_eqb_refl title_clean). cbn [negb]. now rewrite andb_false_r.
Qed.

End NoSeparator.

(** X12. A cleaned title that holds none of the sixteen separators and does
    not start with the artist (compared in lower case) goes through the
    cascade unchanged, whatever the artist tag says. *)
Theorem title_without_separator_unchanged :
  forall (case : CaseOps) (title_clean artist_name : str),
    (forall sep, In sep separators -> contains title_clean sep = false) ->
    artist_name = []
    \/ startswith (str_lower title_clean) (str_lower artist_name) = false ->
    derive_song_title title_clean artist_name = Return title_clean.
Proof. intros case title_clean artist_name H. now apply derive_without_separator. Qed.

Lemma title_without_separator_unchanged_witness :
  (forall sep, In sep separators -> contains (lit "Track Title") sep = false)
  /\ (lit "Someone Else" = []
      \/ startswith (str_lower (lit "Track Title")) (str_lower (lit "Someone Else"))
         = false)
  /\ derive_song_title (lit "Track Title") (lit "Someone Else")
     = Return (lit "Track Title").
Proof.
  assert (H1 : forall sep, In sep separators ->
                 contains (lit "Track Title") sep = false).
  { intros sep H. unfold separators in H. cbn [In] in H.
    repeat (destruct H as [<-|H]; [vm_compute; reflexivity|]). destruct H. }
  assert (H2 : lit "Someone Else" = []
               \/ startswith (str_lower (lit "Track Title"))
                    (str_lower (lit "Someone Else")) = false)
    by (right; vm_compute; reflexivity).
  split; [exact H1|]. split; [exact H2|].
  exact (title_without_separator_unchanged ascii_case (lit "Track Title")
           (lit "Someone Else") H1 H2).
Defined.

(* ================================================================== *)
(** * Further properties: the clean-up of the temporary directory *)

Section CleanupFacts.

Variables (current_time : float) (max_age_seconds : Z).

Lemma cleanup_loop_keeps (entries : list entry) (c s : Z) (e : entry) :
  In e entries ->
  expired current_time max_age_seconds e = false ->
  In e (fst (fst (cleanup_loop current_time max_age_seconds entries c s))).
Proof.
  revert c s; induction entries as [|x rest IH]; intros c s Hin Hexp; [destruct Hin|].
  cbn [cleanup_loop].
  destruct (is_file x) eqn:Hf.
  - destruct (stat x) as [[mtime size]|] eqn:Hs; [|exact Hin].
    destruct (float_gt_int (fsub current_time mtime) max_age_seconds) eqn:Hold.
    + destruct (unlink_ok x); [|exact Hin].
      destruct Hin as [->|Hin]; [|now apply IH].
      unfold expired in Hexp. rewrite Hf, Hs, Hold in Hexp. discriminate.
    + specialize (IH c s).
      destruct (cleanup_loop current_time max_age_seconds rest c s) as [[kept c'] s'].
      cbn [fst] in *. destruct Hin as [->|Hin]; [now left | right; auto].
  - specialize (IH c s).
    destruct (cleanup_loop current_time max_age_seconds rest c s) as [[kept c'] s'].
    cbn [fst] in *. destruct Hin as [->|Hin]; [now left | right; auto].
Qed.

Lemma cleanup_loop_makes_nothing (entries : list entry) (c s : Z) :
  incl (fst (fst (cleanup_loop current_time max_age_seconds entries c s))) entries.
Proof.
  revert c s; induction entries as [|x rest IH]; intros c s; [apply incl_refl|].
  cbn [cleanup_loop].
  destruct (is_file x).
  - destruct (stat x) as [[mtime size]|]; [|apply incl_refl].
    destruct (float_gt_int _ _).
    + destruct (unlink_ok x); [|apply incl_refl]. apply incl_tl, IH.
    + specialize (IH c s).
      destruct (cleanup_loop current_time max_age_seconds rest c s) as [[kept c'] s'].
      cbn [fst] in *. apply incl_cons; [now left | now apply incl_tl].
  - specialize (IH c s).
    destruct (cleanup_loop current_time max_age_seconds rest c s) as [[kept c'] s'].
    cbn [fst] in *. apply incl_cons; [now left | now apply incl_tl].
Qed.

Lemma cleanup_loop_counts (entries : list entry) (c s : Z) :
  let '(kept, c', s') := cleanup_loop current_time max_age_seconds entries c s in
  (c' = c + Z.of_nat (length entries) - Z.of_nat (length kept))%Z
  /\ (s' = s + sizes entries - sizes kept)%Z.
Proof.
  revert c s; induction entries as [|x rest IH]; intros c s.
  - cbn. lia.
  - cbn [cleanup_loop].
    destruct (is_file x).
    + destruct (stat x) as [[mtime size]|] eqn:Hs; [|lia].
      destruct (float_gt_int _ _).
      * destruct (unlink_ok x); [|lia].
        specialize (IH (c + 1)%Z (s + size)%Z).
        destruct (cleanup_loop current_time max_age_seconds rest (c + 1) (s + size))
          as [[kept c'] s'].
        cbn [sizes fold_right length]. fold (sizes rest).
        unfold size_of at 1. rewrite Hs. lia.
      * specialize (IH c s).
        destruct (cleanup_loop current_time max_age_seconds rest c s) as [[kept c'] s'].
        cbn [sizes fold_right length]. fold (sizes rest) (sizes kept). lia.
    + specialize (IH c s).
      destruct (cleanup_loop current_time max_age_seconds rest c s) as [[kept c'] s'].
      cbn [sizes fold_right length]. fold (sizes rest) (sizes kept). lia.
Qed.

Lemma cleanup_loop_complete (entries : list entry) (c s : Z) :
  forallb answers entries = true ->
  fst (fst (cleanup_loop current_time max_age_seconds entries c s))
  = filter (fun e => negb (expired current_time max_age_seconds e)) entries.
Proof.
  revert c s; induction entries as [|x rest IH]; intros c s H; [reflexivity|].
  cbn [forallb] in H. apply andb_true_iff in H as [Hx Hrest].
  unfold answers in Hx. apply andb_true_iff in Hx as [Hstat Hunlink].
  cbn [cleanup_loop filter]. unfold expired at 1.
  destruct (is_file x); cbn [negb orb andb] in *.
  - destruct (stat x) as [[mtime size]|]; [|discriminate].
    destruct (float_gt_int _ _); cbn [negb].
    + rewrite Hunlink. now apply IH.
    + specialize (IH c s Hrest).
      destruct (cleanup_loop current_time max_age_seconds rest c s) as [[kept c'] s'].
      cbn [fst] in *. now rewrite IH.
  - specialize (IH c s Hrest).
    destruct (cleanup_loop current_time max_age_seconds rest c s) as [[kept c'] s'].
    cbn [fst] in *. now rewrite IH.
Qed.

End CleanupFacts.

(** X13. The clean-up never removes a directory, nor a file whose age is not
    above the limit, whatever raises on the way: every such entry is still
    there afterwards; and it creates nothing. *)
Theorem cleanup_spares_young_files :
  forall (entries : list entry) (current_time : float) (max_age_hours : Z)
         (e : entry),
    In e entries ->
    expired current_time (max_age_hours * 3600) e = false ->
    exists kept deleted_count total_size,
      cleanup_old_files (Some entries) current_time max_age_hours
      = (Some kept, deleted_count, total_size)
      /\ In e kept
      /\ incl kept entries.
Proof.
  intros entries current_time max_age_hours e Hin Hexp.
  unfold cleanup_old_files.
  pose proof (cleanup_loop_keeps current_time (max_age_hours * 3600)
                entries 0 0 e Hin Hexp) as H1.
  pose proof (cleanup_loop_makes_nothing current_time (max_age_hours * 3600)
                entries 0 0) as H2.
  destruct (cleanup_loop current_time (max_age_hours * 3600) entries 0 0)
    as [[kept c] s].
  exists kept, c, s. auto.
Qed.

Lemma cleanup_spares_young_files_witness :
  In young_file example_directory
  /\ expired f_200000 (24 * 3600) young_file = false
  /\ exists kept deleted_count total_size,
       cleanup_old_files (Some example_directory) f_200000 24
       = (Some kept, deleted_count, total_size)
       /\ In young_file kept
       /\ incl kept example_directory.
Proof.
  assert (H1 : In young_file example_directory) by (right; left; reflexivity).
  assert (H2 : expired f_200000 (24 * 3600) young_file = false)
    by (vm_compute; reflexivity).
  split; [exact H1|]. split; [exact H2|].
  exact (cleanup_spares_young_files example_directory f_200000 24 young_file H1 H2).
Defined.

(** X14. When no [stat] and no [unlink] raises, the clean-up leaves exactly
    the entries that are not expired files, in their order: every regular
    file older than the limit is gone. *)
Theorem cleanup_removes_every_old_file :
  forall (entries : list entry) (current_time : float) (max_age_hours : Z),
    forallb answers entries = true ->
    fst (fst (cleanup_old_files (Some entries) current_time max_age_hours))
    = Some (filter (fun e => negb (expired current_time (max_age_hours * 3600) e))
              entries).
Proof.
  intros entries current_time max_age_hours H. unfold cleanup_old_files.
  pose proof (cleanup_loop_complete current_time (max_age_hours * 3600)
                entries 0 0 H) as E.
  destruct (cleanup_loop current_time (max_age_hours * 3600) entries 0 0)
    as [[kept c] s].
  cbn [fst] in *. now rewrite E.
Qed.

Lemma cleanup_removes_every_old_file_witness :
  forallb answers [old_file; young_file] = true
  /\ fst (fst (cleanup_old_files (Some [old_file; young_file]) f_200000 24))
     = Some [young_file].
Proof.
  assert (H : forallb answers [old_file; young_file] = true) by reflexivity.
  split; [exact H|].
  rewrite (cleanup_removes_every_old_file [old_file; young_file] f_200000 24 H).
  vm_compute. reflexivity.
Defined.

(** X15. The numbers the clean-up reports are exact, also when it is cut
    short: [deleted_count] is the number of entries that are gone and
    [total_size] is the sum of their sizes. *)
Theorem cleanup_reports_what_it_removed :
  forall (entries : list entry) (current_time : float) (max_age_hours : Z),
    exists kept deleted_count total_size,
      cleanup_old_files (Some entries) current_time max_age_hours
      = (Some kept, deleted_count, total_size)
      /\ (deleted_count = Z.of_nat (length entries) - Z.of_nat (length kept))%Z
      /\ (total_size = sizes entries - sizes kept)%Z.
Proof.
  intros entries current_time max_age_hours. unfold cleanup_old_files.
  pose proof (cleanup_loop_counts current_time (max_age_hours * 3600)
                entries 0 0) as H.
  destruct (cleanup_loop current_time (max_age_hours * 3600) entries 0 0)
    as [[kept c] s].
  exists kept, c, s. split; [reflexivity|]. lia.
Qed.

(* ================================================================== *)
(** * Further properties: names and paths *)

Section PathFacts.

Lemma split_slash_no_slash (s cur part : str) :
  ~ In SLASH cur -> In part (split_slash cur s) -> ~ In SLASH part.
Proof.
  revert cur; induction s as [|c s IH]; intros cur Hcur; cbn [split_slash].
  - intros [<-|[]]. exact Hcur.
  - destruct (N.eqb_spec c SLASH) as [->|Hc].
    + intros [<-|H]; [exact Hcur|]. apply (IH []); [intros []|exact H].
    + apply IH. intros H. apply in_app_or in H as [H|[H|[]]]; auto.
Qed.

Lemma path_name_no_slash (p : str) : ~ In SLASH (path_name p).
Proof.
  unfold path_name.
  destruct (last_in_or_default
              (filter (fun part => negb (str_eqb part []) && negb (str_eqb part [DOT]))
                      (split_slash [] p)) []) as [->|H].
  - intros [].
  - apply filter_In in H as [H _].
    apply (split_slash_no_slash p [] _ ltac:(intros []) H).
Qed.

Lemma path_stem_no_slash (p : str) : ~ In SLASH (path_stem p).
Proof.
  unfold path_stem. destruct (suffix_index (path_name p)).
  - intros H. apply firstn_incl in H. now apply path_name_no_slash in H.
  - apply path_name_no_slash.
Qed.

Lemma path_suffix_no_slash (p : str) : ~ In SLASH (path_suffix p).
Proof.
  unfold path_suffix. destruct (suffix_index (path_name p)).
  - intros H. apply skipn_incl in H. now apply path_name_no_slash in H.
  - intros [].
Qed.

Lemma split_slash_plain (s cur : str) :
  ~ In SLASH s -> split_slash cur s = [cur ++ s].
Proof.
  revert cur; induction s as [|c s IH]; intros cur H; cbn [split_slash].
  - now rewrite app_nil_r.
  - destruct (N.eqb_spec c SLASH) as [->|Hc]; [exfalso; apply H; now left|].
    rewrite IH by (intros H'; apply H; now right).
    now rewrite <- app_assoc.
Qed.

Lemma split_slash_app (a b cur : str) :
  split_slash cur (a ++ SLASH :: b) = split_slash cur a ++ split_slash [] b.
Proof.
  revert cur; induction a as [|c a IH]; intros cur; cbn [app split_slash].
  - rewrite N.eqb_refl. reflexivity.
  - destruct (N.eqb c SLASH); rewrite IH; reflexivity.
Qed.

Lemma is_component_true (x : str) :
  x <> [] -> x <> [DOT] -> is_component x = true.
Proof.
  intros H1 H2. unfold is_component.
  destruct (str_eqb x []) eqn:E1; [apply str_eqb_eq in E1; contradiction|].
  destruct (str_eqb x [DOT]) eqn:E2; [apply str_eqb_eq in E2; contradiction|].
  reflexivity.
Qed.

(** The name of [directory/x] is [x], for an [x] that is one component. *)
Lemma path_name_join (d x : str) :
  ~ In SLASH x -> x <> [] -> x <> [DOT] -> path_name (d ++ SLASH :: x) = x.
Proof.
  intros Hs H1 H2. unfold path_name. fold is_component.
  rewrite split_slash_app, (split_slash_plain x [] Hs), filter_app.
  cbn [app filter]. rewrite (is_component_true x H1 H2). apply last_last.
Qed.

Lemma path_name_plain (x : str) :
  ~ In SLASH x -> x <> [] -> x <> [DOT] -> path_name x = x.
Proof.
  intros Hs H1 H2. unfold path_name. fold is_component.
  rewrite (split_slash_plain x [] Hs). cbn [app filter].
  now rewrite (is_component_true x H1 H2).
Qed.

Lemma rfind_char_app (c : char) (a b : str) :
  rfind_char c (a ++ b)
  = match rfind_char c b with
    | Some i => Some (length a + i)
    | None => rfind_char c a
    end.
Proof.
  induction a as [|x a IH]; cbn [app rfind_char length].
  - destruct (rfind_char c b); reflexivity.
  - rewrite IH. destruct (rfind_char c b); reflexivity.
Qed.

(** A name made of a non-empty stem and [.mp3] splits back into the two. *)
Lemma suffix_index_mp3 (x : str) :
  x <> [] -> suffix_index (x ++ lit ".mp3") = Some (length x).
Proof.
  intros Hx. unfold suffix_index. rewrite rfind_char_app.
  change (rfind_char DOT (lit ".mp3")) with (Some 0). cbv beta iota.
  rewrite Nat.add_0_r, length_app.
  change (length (lit ".mp3")) with 4.
  destruct x as [|c x]; [contradiction|]. cbn [length].
  replace (0 <? S (length x)) with true by (symmetry; apply Nat.ltb_lt; lia).
  replace (S (length x) <? S (length x) + 4 - 1) with true
    by (symmetry; apply Nat.ltb_lt; lia).
  reflexivity.
Qed.

Lemma mp3_name_is_component (x : str) :
  ~ In SLASH x ->
  ~ In SLASH (x ++ lit ".mp3") /\ x ++ lit ".mp3" <> [] /\ x ++ lit ".mp3" <> [DOT].
Proof.
  intros Hs. split; [|split].
  - intros H. apply in_app_or in H as [H|H]; [auto|].
    vm_compute in H. repeat (destruct H as [H|H]; [discriminate H|]). exact H.
  - destruct x; discriminate.
  - intros H. apply (f_equal (@length char)) in H.
    rewrite length_app in H. cbn in H. lia.
Qed.

Lemma path_suffix_mp3 (d x : str) :
  ~ In SLASH x -> x <> [] ->
  path_suffix (d ++ SLASH :: x ++ lit ".mp3") = lit ".mp3"
  /\ path_suffix (x ++ lit ".mp3") = lit ".mp3"
  /\ path_stem (x ++ lit ".mp3") = x.
Proof.
  intros Hs Hx. destruct (mp3_name_is_component x Hs) as (C1 & C2 & C3).
  unfold path_suffix, path_stem.
  rewrite (path_name_join d _ C1 C2 C3), (path_name_plain _ C1 C2 C3).
  rewrite (suffix_index_mp3 x Hx).
  rewrite skipn_app, skipn_all, Nat.sub_diag, firstn_app, firstn_all, Nat.sub_diag.
  cbn [skipn firstn app]. rewrite app_nil_r. auto.
Qed.

End PathFacts.

Lemma digits_no_slash (d : Decimal.uint) :
  ~ In SLASH (lit (NilEmpty.string_of_uint d)).
Proof.
  induction d; cbn; intros H; try (destruct H as [H|H]; [discriminate H|]); auto.
Qed.

Lemma str_of_int_no_slash (n : Z) : ~ In SLASH (str_of_int n).
Proof.
  unfold str_of_int, NilZero.string_of_int.
  destruct (Z.to_int n) as [d|d]; unfold NilZero.string_of_uint.
  - destruct d; try apply digits_no_slash.
    cbn. intros [H|[]]. discriminate H.
  - intros H. change (In SLASH (45%N :: lit match d with
                                              | Decimal.Nil => "0"
                                              | _ => NilEmpty.string_of_uint d
                                              end)) in H.
    destruct H as [H|H]; [discriminate H|].
    destruct d; try (now apply digits_no_slash in H).
    cbn in H. destruct H as [H|[]]. discriminate H.
Qed.

Lemma speed_tag_no_slash (speed_factor : float) : ~ In SLASH (speed_tag speed_factor).
Proof.
  destruct (speed_tag_cases speed_factor) as [-> | [-> | ->]]; vm_compute;
    intros H; repeat (destruct H as [H|H]; [discriminate H|]); exact H.
Qed.

Lemma strip_speed_tags_no_slash (s : str) :
  ~ In SLASH s -> ~ In SLASH (strip_speed_tags s).
Proof. intros H H'. apply H. now apply strip_speed_tags_incl. Qed.

(** The part of an output name before the suffix: stem, tag, percentage. *)
Lemma output_name_parts (original_filename : str) (speed_factor : float) (out : str) :
  get_output_filename original_filename speed_factor = Return out ->
  exists front,
    out = front ++ path_suffix original_filename
    /\ ~ In SLASH front
    /\ (strip_speed_tags (path_stem original_filename) <> [] -> front <> []).
Proof.
  unfold get_output_filename.
  destruct (int_of_float _) as [speed_percent|]; [|discriminate].
  intros H. injection H as <-.
  exists ((strip_speed_tags (path_stem original_filename) ++ speed_tag speed_factor)
          ++ (if negb (speed_percent =? 0)%Z
              then lit " " ++ str_of_int_signed speed_percent ++ lit "%"
              else [])).
  split; [now rewrite <- !app_assoc|]. split.
  - intros H. apply in_app_or in H as [H|H].
    + apply in_app_or in H as [H|H].
      * revert H. apply strip_speed_tags_no_slash, path_stem_no_slash.
      * revert H. apply speed_tag_no_slash.
    + destruct (negb (speed_percent =? 0)%Z); [|destruct H].
      change (lit " ") with [32%N] in H. change (lit "%") with [37%N] in H.
      cbn [app] in H. destruct H as [H|H]; [discriminate H|].
      apply in_app_or in H as [H|H].
      * unfold str_of_int_signed in H. destruct (0 <=? speed_percent)%Z.
        -- change (lit "+") with [43%N] in H. cbn [app] in H.
           destruct H as [H|H]; [discriminate H|].
           now apply str_of_int_no_slash in H.
        -- now apply str_of_int_no_slash in H.
      * destruct H as [H|[]]. discriminate H.
  - intros Hne H. apply app_eq_nil in H as [H _]. apply app_eq_nil in H as [H _].
    contradiction.
Qed.

(** X16. Whatever the original file name and the factor, the output name
    holds no slash: directories of the original name are dropped, and the
    name keeps the suffix of the original. *)
Theorem output_name_is_one_component :
  forall (original_filename : str) (speed_factor : float) (out : str),
    get_output_filename original_filename speed_factor = Return out ->
    ~ In SLASH out
    /\ exists front, out = front ++ path_suffix original_filename.
Proof.
  intros original_filename speed_factor out H.
  destruct (output_name_parts original_filename speed_factor out H)
    as (front & -> & Hfront & _).
  split; [|eauto].
  intros H'. apply in_app_or in H' as [H'|H']; [auto|].
  now apply path_suffix_no_slash in H'.
Qed.

Lemma output_name_is_one_component_witness :
  get_output_filename (lit "../../etc/my song.flac") f_0_5
  = Return (lit "my song (Slowed) -50%.flac")
  /\ ~ In SLASH (lit "my song (Slowed) -50%.flac").
Proof.
  assert (H : get_output_filename (lit "../../etc/my song.flac") f_0_5
              = Return (lit "my song (Slowed) -50%.flac"))
    by (vm_compute; reflexivity).
  split; [exact H|].
  exact (proj1 (output_name_is_one_component _ _ _ H)).
Defined.

(** X17. A video is carried on under the name [stem.mp3]; the output file
    made from that name ends in [.mp3] and is directly playable, so no
    second conversion is needed, as long as the stem is not empty once the
    speed tags are stripped. *)
Theorem video_output_is_playable :
  forall (file_name : str) (speed_factor : float) (out temp_dir : str),
    strip_speed_tags (path_stem file_name) <> [] ->
    get_output_filename (video_file_name file_name) speed_factor = Return out ->
    path_suffix (in_temp_dir temp_dir out) = lit ".mp3"
    /\ is_telegram_playable_format (in_temp_dir temp_dir out) = true.
Proof.
  intros file_name speed_factor out temp_dir Hne Hout.
  assert (Hstem : path_stem file_name <> []).
  { intros E. apply Hne. rewrite E. reflexivity. }
  destruct (path_suffix_mp3 [] (path_stem file_name)
              (path_stem_no_slash file_name) Hstem) as (_ & Hsuf & Hst).
  destruct (output_name_parts _ _ _ Hout) as (front & -> & Hfront & Hf).
  unfold video_file_name in *. rewrite Hsuf in *. rewrite Hst in Hf.
  specialize (Hf Hne).
  destruct (path_suffix_mp3 temp_dir front Hfront Hf) as (E & _ & _).
  unfold in_temp_dir. cbn [app]. split; [exact E|].
  unfold is_telegram_playable_format. rewrite E. reflexivity.
Qed.

Lemma video_output_is_playable_witness :
  strip_speed_tags (path_stem (lit "clip.mov")) <> []
  /\ get_output_filename (video_file_name (lit "clip.mov")) f_1_2
     = Return (lit "clip (Speed Up) +19%.mp3")
  /\ is_telegram_playable_format
       (in_temp_dir (lit "temp") (lit "clip (Speed Up) +19%.mp3")) = true.
Proof.
  assert (H1 : strip_speed_tags (path_stem (lit "clip.mov")) <> [])
    by (vm_compute; discriminate).
  assert (H2 : get_output_filename (video_file_name (lit "clip.mov")) f_1_2
               = Return (lit "clip (Speed Up) +19%.mp3"))
    by (vm_compute; reflexivity).
  split; [exact H1|]. split; [exact H2|].
  exact (proj2 (video_output_is_playable (lit "clip.mov") f_1_2 _ (lit "temp") H1 H2)).
Defined.

Lemma path_stem_nonempty (p : str) : path_name p <> [] -> path_stem p <> [].
Proof.
  intros H. unfold path_stem, suffix_index.
  destruct (rfind_char DOT (path_name p)) as [i|]; [|exact H].
  destruct (0 <? i) eqn:E; cbn [andb]; [|exact H].
  destruct (i <? length (path_name p) - 1); [|exact H].
  apply Nat.ltb_lt in E.
  destruct (path_name p) as [|c n]; [contradiction|].
  destruct i; [lia | discriminate].
Qed.

(** X18. The MP3 the bot makes for a file that is not directly playable is
    named after the stem of that file, ends in [.mp3] and is itself
    directly playable. *)
Theorem mp3_copy_is_playable :
  forall (output_path temp_dir : str),
    path_name output_path <> [] ->
    path_suffix (in_temp_dir temp_dir (mp3_file_name output_path)) = lit ".mp3"
    /\ path_stem (mp3_file_name output_path) = path_stem output_path
    /\ is_telegram_playable_format (in_temp_dir temp_dir (mp3_file_name output_path))
       = true.
Proof.
  intros output_path temp_dir H.
  destruct (path_suffix_mp3 temp_dir (path_stem output_path)
              (path_stem_no_slash output_path) (path_stem_nonempty _ H))
    as (E1 & _ & E2).
  unfold in_temp_dir, mp3_file_name. cbn [app].
  split; [exact E1|]. split; [exact E2|].
  unfold is_telegram_playable_format. rewrite E1. reflexivity.
Qed.

Lemma mp3_copy_is_playable_witness :
  path_name (lit "temp/song (Slowed) -19%.flac") <> []
  /\ is_telegram_playable_format
       (in_temp_dir (lit "temp") (mp3_file_name (lit "temp/song (Slowed) -19%.flac")))
     = true.
Proof.
  assert (H : path_name (lit "temp/song (Slowed) -19%.flac") <> [])
    by (vm_compute; discriminate).
  split; [exact H|].
  exact (proj2 (proj2 (mp3_copy_is_playable _ (lit "temp") H))).
Defined.

Lemma replace_char_without (s : str) (c c' d : char) :
  d <> c -> (c' = c \/ ~ In c s) -> ~ In c (replace s [c'] [d]).
Proof.
  intros Hd Hs. rewrite replace_char. intros H.
  apply in_flat_map in H as (x & Hx & H).
  destruct (N.eqb_spec x c') as [->|Hne].
  - destruct H as [H|[]]. contradiction.
  - destruct H as [H|[]]. subst x.
    destruct Hs as [Hs|Hs]; [now subst c' | contradiction].
Qed.

(** X19. The name the download is stored under holds no slash and no
    directory part, whatever the file id says: in the temporary directory it
    names a file of that directory itself. *)
Theorem input_name_is_one_component :
  forall (file_id : str) (file_path : option str) (file_name : str)
         (is_video : bool) (temp_dir : str),
    ~ In SLASH (input_file_name file_id file_path file_name is_video)
    /\ path_name (in_temp_dir temp_dir
                    (input_file_name file_id file_path file_name is_video))
       = input_file_name file_id file_path file_name is_video.
Proof.
  intros file_id file_path file_name is_video temp_dir.
  assert (H : ~ In SLASH (input_file_name file_id file_path file_name is_video)).
  { unfold input_file_name. change (lit "_") with [95%N].
    intros H. change (lit "input_") with (map N_of_ascii
      (list_ascii_of_string "input_")) in H.
    apply in_app_or in H as [H|H].
    - vm_compute in H. repeat (destruct H as [H|H]; [discriminate H|]). exact H.
    - apply in_app_or in H as [H|H].
      + revert H. apply replace_char_without; [discriminate|]. right.
        apply replace_char_without; [discriminate | now left].
      + destruct (negb (nonempty _)).
        * destruct is_video; vm_compute in H;
            repeat (destruct H as [H|H]; [discriminate H|]); exact H.
        * destruct file_path as [[|c fp]|]; now apply path_suffix_no_slash in H. }
  split; [exact H|].
  unfold in_temp_dir. cbn [app]. apply path_name_join; [exact H| |];
    unfold input_file_name; discriminate.
Qed.

Lemma str_in_app (x : str) (l1 l2 : list str) :
  str_in x (l1 ++ l2) = str_in x l1 || str_in x l2.
Proof. apply existsb_app. Qed.

Lemma video_ext_is_no_audio_ext (ext : str) :
  str_in ext video_exts = true -> str_in ext audio_exts = false.
Proof.
  unfold str_in at 1. intros H. apply existsb_exists in H as (x & Hx & E).
  apply str_eqb_eq in E. subst x.
  unfold video_exts in Hx. cbn [In] in Hx.
  repeat (destruct Hx as [<-|Hx]; [reflexivity|]). destruct Hx.
Qed.

(** X20. A document is turned down exactly when its mime type (if any)
    names neither audio nor video and its extension, in lower case, is none
    of the eighteen listed.  It is taken as a video exactly when the mime
    type names video, or names neither and the extension is one of the nine
    video extensions; no extension is on both lists. *)
Theorem document_classification :
  forall (case : CaseOps) (file_name : str) (mime_type : option str),
    let names (what : str) :=
      match mime_type with
      | Some (c :: m) => contains (str_lower (c :: m)) what
      | _ => false
      end in
    let ext := str_lower (path_suffix file_name) in
    (classify_document file_name mime_type = None <->
     names (lit "audio") = false /\ names (lit "video") = false
     /\ str_in ext audio_exts = false /\ str_in ext video_exts = false)
    /\ (classify_document file_name mime_type = Some true <->
        names (lit "video") = true
        \/ (names (lit "audio") = false /\ names (lit "video") = false
            /\ str_in ext video_exts = true))
    /\ (forall e, str_in e video_exts = true -> str_in e audio_exts = false).
Proof.
  intros case file_name mime_type names ext.
  split; [|split; [|apply video_ext_is_no_audio_ext]].
  - unfold classify_document, classify_by_extension, names. fold ext.
    rewrite !str_in_app.
    destruct mime_type as [[|c m]|];
      try (destruct (contains (str_lower (c :: m)) (lit "audio"));
           destruct (contains (str_lower (c :: m)) (lit "video"))); cbn [orb negb];
      destruct (str_in ext audio_exts); destruct (str_in ext video_exts);
      cbn [orb negb]; intuition congruence.
  - unfold classify_document, classify_by_extension, names. fold ext.
    rewrite !str_in_app.
    destruct mime_type as [[|c m]|];
      try (destruct (contains (str_lower (c :: m)) (lit "audio"));
           destruct (contains (str_lower (c :: m)) (lit "video"))); cbn [orb negb];
      destruct (str_in ext audio_exts); destruct (str_in ext video_exts);
      cbn [orb negb]; intuition congruence.
Qed.

(** X21. At factor 1.0 nothing is appended to a file name: the output name
    is the stem without old speed tags followed by the suffix, and it is the
    last component of the original name when the stem held no tag and no
    blank at its ends. *)
Theorem identity_factor_keeps_name :
  forall original_filename : str,
    get_output_filename original_filename f_1_0
    = Return (strip_speed_tags (path_stem original_filename)
              ++ path_suffix original_filename)
    /\ (strip_speed_tags (path_stem original_filename) = path_stem original_filename ->
        get_output_filename original_filename f_1_0
        = Return (path_name original_filename)).
Proof.
  intros original_filename.
  assert (E : get_output_filename original_filename f_1_0
              = Return (strip_speed_tags (path_stem original_filename)
                        ++ path_suffix original_filename)).
  { unfold get_output_filename.
    change (int_of_float (fmul (fsub f_1_0 f_1_0) f_100)) with (Some 0%Z).
    change (speed_tag f_1_0) with (@nil char).
    cbv beta iota zeta. change (negb (0 =? 0)%Z) with false. cbv iota.
    now rewrite app_nil_r. }
  split; [exact E|]. intros H. rewrite E, H. f_equal.
  unfold path_stem, path_suffix.
  destruct (suffix_index (path_name original_filename)).
  - apply firstn_skipn.
  - apply app_nil_r.
Qed.

(** X22. For a cleaned title of the form artist, " - ", rest, with the
    artist as the artist tag writes it, the cascade gives the rest without
    the blanks at its ends, whatever the case mapping, as long as the artist
    does not occur in that rest again (compared in lower case). *)
Theorem artist_hyphen_title :
  forall (case : CaseOps) (artist_name rest : str),
    artist_name <> [] ->
    contains (str_lower (strip rest)) (str_lower artist_name) = false ->
    derive_song_title (artist_name ++ [SPACE; HYPHEN; SPACE] ++ rest) artist_name
    = Return (strip rest).
Proof.
  intros case artist_name rest Ha Hno.
  set (title_clean := artist_name ++ [SPACE; HYPHEN; SPACE] ++ rest).
  assert (S : separator_match title_clean artist_name = Some (strip rest)).
  { unfold separator_match, separators. cbn [first_match].
    unfold match_at_start, artist_variants. cbn [map first_match].
    unfold title_clean at 1. rewrite app_assoc, startswith_self_app.
    unfold title_clean. rewrite app_assoc, skipn_app, skipn_all, Nat.sub_diag.
    reflexivity. }
  pose proof (separator_match_some _ _ _ S) as [Hlen _].
  unfold derive_song_title.
  destruct artist_name as [|c a] eqn:Ea; [contradiction|]. cbn [nonempty].
  rewrite <- Ea in *. unfold remove_artist. rewrite S.
  rewrite (str_eqb_length_neq (strip rest) title_clean) by lia.
  cbv beta iota delta [exn_bind].
  rewrite !(str_eqb_length_neq (strip rest) title_clean) by lia.
  cbn [andb]. unfold remove_artist_substring.
  rewrite Hno, andb_false_r. reflexivity.
Qed.

Lemma artist_hyphen_title_witness :
  lit "Daft Punk" <> []
  /\ contains (str_lower (strip (lit "Around the World")))
              (str_lower (lit "Daft Punk")) = false
  /\ derive_song_title (lit "Daft Punk" ++ [SPACE; HYPHEN; SPACE]
                        ++ lit "Around the World") (lit "Daft Punk")
     = Return (lit "Around the World").
Proof.
  assert (H1 : lit "Daft Punk" <> []) by discriminate.
  assert (H2 : contains (str_lower (strip (lit "Around the World")))
                        (str_lower (lit "Daft Punk")) = false)
    by (vm_compute; reflexivity).
  split; [exact H1|]. split; [exact H2|].
  exact (artist_hyphen_title ascii_case (lit "Daft Punk") (lit "Around the World")
           H1 H2).
Defined.

(** X23. When the title starts with the artist in another case, what the
    prefix match keeps never starts with a dash, a colon, a bar or a slash:
    the loop that drops them runs until none is left in front. *)
Theorem prefix_match_drops_leading_separators :
  forall (case : CaseOps) (title_clean artist_name s : str),
    prefix_match title_clean artist_name = Some s ->
    match s with
    | [] => True
    | c :: _ => char_in c LEADING_SEPARATORS = false
    end
    /\ incl s (skipn (length artist_name) title_clean).
Proof.
  intros case title_clean artist_name s. unfold prefix_match.
  destruct (startswith _ _); [|discriminate].
  set (pos := skip_after_artist _ _).
  assert (Hpos : length artist_name <= pos).
  { unfold pos. generalize (skipn (length artist_name) title_clean).
    generalize (length artist_name).
    intros n l. revert n. induction l as [|c l IH]; intros n; cbn [skip_after_artist].
    - lia.
    - destruct (_ || _); [|lia]. specialize (IH (S n)). lia. }
  destruct (pos <? length title_clean); [|discriminate].
  intros H. injection H as <-. split.
  - apply strip_leading_exits.
  - eapply incl_tran; [apply strip_leading_incl|].
    eapply incl_tran; [apply strip_incl|].
    replace pos with ((pos - length artist_name) + length artist_name) by lia.
    rewrite <- skipn_skipn. apply skipn_incl.
Qed.

Lemma prefix_match_drops_leading_separators_witness :
  prefix_match (lit "DAFT PUNK -- Da Funk") (lit "Daft Punk") = Some (lit "Da Funk")
  /\ char_in 68%N LEADING_SEPARATORS = false.
Proof.
  assert (H : prefix_match (lit "DAFT PUNK -- Da Funk") (lit "Daft Punk")
              = Some (lit "Da Funk")) by (vm_compute; reflexivity).
  split; [exact H|].
  exact (proj1 (prefix_match_drops_leading_separators ascii_case _ _ _ H)).
Defined.

(* ================================================================== *)
(** * The cascade keeps pieces of the title *)

Section SubstringFacts.

Lemma substring_refl (s : str) : substring s s.
Proof. exists [], []. now rewrite app_nil_r. Qed.

Lemma substring_trans (s t u : str) : substring s t -> substring t u -> substring s u.
Proof.
  intros (l & r & ->) (l' & r' & ->). exists (l' ++ l), (r ++ r').
  now rewrite <- !app_assoc.
Qed.

Lemma substring_firstn (n : nat) (s : str) : substring (firstn n s) s.
Proof. exists [], (skipn n s). symmetry. apply firstn_skipn. Qed.

Lemma substring_skipn (n : nat) (s : str) : substring (skipn n s) s.
Proof. exists (firstn n s), []. rewrite app_nil_r. symmetry. apply firstn_skipn. Qed.

Lemma substring_strip (s : str) : substring (strip s) s.
Proof. destruct (strip_middle s) as (l & r & H). now exists l, r. Qed.

Lemma substring_tail (c : char) (s : str) : substring s (c :: s).
Proof. exists [c], []. now rewrite app_nil_r. Qed.

Lemma substring_split1 (s sep p : str) : In p (split1 s sep) -> substring p s.
Proof.
  unfold split1. destruct (find s sep) as [i|]; simpl.
  - intros [<-|[<-|[]]]; [apply substring_firstn | apply substring_skipn].
  - intros [<-|[]]. apply substring_refl.
Qed.

Lemma substring_strip_leading (chars s : str) : substring (strip_leading chars s) s.
Proof.
  unfold strip_leading. generalize (length s) as fuel. intros fuel.
  revert s; induction fuel as [|fuel IH]; intros s; cbn [strip_leading_loop];
    [apply substring_refl|].
  destruct s as [|c rest]; [apply substring_refl|].
  destruct (char_in c chars); [|apply substring_refl].
  eapply substring_trans; [apply IH|].
  eapply substring_trans; [apply substring_strip | apply substring_tail].
Qed.

Lemma contains_true_split (s p : str) :
  contains s p = true -> exists l r, s = l ++ p ++ r.
Proof.
  unfold contains. destruct (find s p) as [i|] eqn:F; [|discriminate].
  intros _. apply find_some in F as [F _].
  apply startswith_spec in F as [r F].
  exists (firstn i s), r. rewrite <- F. symmetry. apply firstn_skipn.
Qed.

Lemma contains_substring (s t p : str) :
  substring s t -> contains s p = true -> contains t p = true.
Proof.
  intros (l & r & ->) H. apply contains_true_split in H as (l' & r' & ->).
  replace (l ++ (l' ++ p ++ r') ++ r) with ((l ++ l') ++ p ++ (r' ++ r))
    by now rewrite <- !app_assoc.
  apply contains_app.
Qed.

Lemma has_annotation_substring (s t : str) :
  substring s t -> has_annotation t = false -> has_annotation s = false.
Proof.
  unfold has_annotation. intros Hsub H.
  apply orb_false_iff in H as [H1 H2]. apply orb_false_iff. split.
  - destruct (contains s SLOWED) eqn:E; [|reflexivity].
    apply (contains_substring s t _ Hsub) in E. congruence.
  - destruct (contains s SPEED_UP) eqn:E; [|reflexivity].
    apply (contains_substring s t _ Hsub) in E. congruence.
Qed.

(** The two parts of a split stand around the separator. *)
Lemma split1_two (s sep p0 p1 : str) :
  split1 s sep = [p0; p1] -> s = p0 ++ sep ++ p1.
Proof.
  unfold split1. destruct (find s sep) as [i|] eqn:F; [|discriminate].
  intros H. injection H as <- <-.
  apply find_some in F as [F _]. apply startswith_spec in F as [r F].
  rewrite Nat.add_comm, <- skipn_skipn, F, skipn_app, skipn_all, Nat.sub_diag.
  cbn [app skipn]. rewrite <- F. symmetry. apply firstn_skipn.
Qed.

End SubstringFacts.

Section CascadePieces.

Context {case : CaseOps}.

Lemma separator_match_substring (title_clean artist_name s : str) :
  separator_match title_clean artist_name = Some s -> substring s title_clean.
Proof.
  intros H. unfold separator_match in H.
  apply first_match_some in H as (sep & _ & H).
  destruct (match_at_start title_clean artist_name sep) as [s'|] eqn:E.
  - injection H as <-. unfold match_at_start in E.
    apply first_match_some in E as (pattern & _ & E).
    destruct (startswith title_clean pattern); [|discriminate].
    injection E as <-.
    eapply substring_trans; [apply substring_strip | apply substring_skipn].
  - unfold match_at_end in H.
    apply first_match_some in H as (pattern & _ & H).
    destruct (endswith title_clean pattern); [|discriminate].
    injection H as <-.
    eapply substring_trans; [apply substring_strip | apply substring_firstn].
Qed.

Lemma prefix_match_substring (title_clean artist_name s : str) :
  prefix_match title_clean artist_name = Some s -> substring s title_clean.
Proof.
  unfold prefix_match.
  destruct (startswith _ _); [|discriminate].
  destruct (_ <? _); [|discriminate].
  intros H. injection H as <-.
  eapply substring_trans; [apply substring_strip_leading|].
  eapply substring_trans; [apply substring_strip | apply substring_skipn].
Qed.

Lemma split_match_substring (title_clean artist_lower : str) (seps : list str) :
  exists r, split_match title_clean (Some artist_lower) seps = Return r
            /\ forall s, r = Some s -> substring s title_clean.
Proof.
  induction seps as [|sep seps IH]; simpl.
  - exists None. split; [reflexivity | discriminate].
  - destruct (contains title_clean sep); [|exact IH].
    destruct (split1 title_clean sep) as [|p1 [|p2 [|p3 ps]]] eqn:E; try exact IH.
    assert (Hp2 : substring (strip p2) title_clean).
    { eapply substring_trans; [apply substring_strip|].
      apply (substring_split1 title_clean sep). rewrite E. simpl. auto. }
    destruct (str_eqb _ artist_lower).
    + eexists. split; [reflexivity|]. intros s Hs. injection Hs as <-. exact Hp2.
    + destruct (_ && _); [|exact IH].
      eexists. split; [reflexivity|]. intros s Hs. injection Hs as <-. exact Hp2.
Qed.

Lemma remove_artist_substring_of_title (title_clean artist_name : str) :
  exists s, remove_artist title_clean artist_name = Return s
            /\ substring s title_clean.
Proof.
  unfold remove_artist.
  destruct (separator_match title_clean artist_name) as [s|] eqn:E.
  - pose proof (separator_match_substring _ _ _ E) as Hsub.
    apply separator_match_some in E as [Hlen _].
    rewrite str_eqb_length_neq by lia. eauto.
  - destruct (split_match_substring title_clean (str_lower artist_name) separators)
      as (r & Hr & Hsub).
    destruct (prefix_match title_clean artist_name) as [s|] eqn:P.
    + apply prefix_match_substring in P. cbv beta iota zeta delta [negb orb].
      destruct (str_eqb s title_clean); [|eauto].
      rewrite Hr. cbv beta iota delta [exn_bind]. destruct r as [s'|]; eauto.
    + cbv beta iota zeta delta [negb orb]. rewrite Hr.
      cbv beta iota delta [exn_bind].
      destruct r as [s'|]; eauto using substring_refl.
Qed.

Lemma best_split_substring (title_clean s : str) :
  best_split title_clean = Some s -> substring s title_clean.
Proof.
  unfold best_split.
  assert (H : forall seps st,
             (forall s, fst st = Some s -> substring s title_clean) ->
             forall s, fst (fold_left (best_split_step title_clean) seps st) = Some s ->
                       substring s title_clean).
  { induction seps as [|sep seps IH]; intros st Hst; cbn [fold_left]; [exact Hst|].
    apply IH. unfold best_split_step. destruct st as [best_match best_position].
    destruct (contains title_clean sep); [|exact Hst].
    destruct (split1 title_clean sep) as [|p1 [|p2 [|p3 ps]]] eqn:E; try exact Hst.
    destruct (find title_clean sep) as [index|]; [|exact Hst].
    destruct (_ || _); [|exact Hst].
    destruct (_ <? _)%Z; [|exact Hst].
    cbn [fst]. intros s0 Hs. injection Hs as <-.
    eapply substring_trans; [apply substring_strip|].
    apply (substring_split1 title_clean sep). rewrite E. simpl. auto. }
  apply H. cbn [fst]. discriminate.
Qed.

Lemma forced_split_substring (title_clean s : str) :
  forced_split title_clean = Some s -> substring s title_clean.
Proof.
  unfold forced_split. intros H.
  apply first_match_some in H as (sep & _ & H).
  destruct (contains title_clean sep); [|discriminate].
  destruct (split1 title_clean sep) as [|p1 [|p2 [|p3 ps]]] eqn:E; try discriminate.
  injection H as <-.
  eapply substring_trans; [apply substring_strip|].
  apply (substring_split1 title_clean sep). rewrite E. simpl. auto.
Qed.

(** Before the final check the derived title is one piece of the cleaned
    title. *)
Lemma derive_song_title_piece (title_clean artist_name : str) :
  exists piece,
    substring piece title_clean
    /\ derive_song_title title_clean artist_name
       = Return (remove_artist_substring title_clean artist_name piece).
Proof.
  unfold derive_song_title.
  assert (H : exists s0,
             (if nonempty artist_name then remove_artist title_clean artist_name
              else Return title_clean) = Return s0 /\ substring s0 title_clean).
  { destruct (nonempty artist_name);
      [apply remove_artist_substring_of_title | eauto using substring_refl]. }
  destruct H as (s0 & -> & H0). cbv beta iota delta [exn_bind].
  eexists. split; [|reflexivity].
  assert (H1 : substring
                 (if str_eqb s0 title_clean
                  then match best_split title_clean with
                       | Some ((_ :: _) as best_match) => best_match
                       | _ => s0
                       end
                  else s0) title_clean).
  { destruct (str_eqb s0 title_clean); [|exact H0].
    destruct (best_split title_clean) as [[|c b]|] eqn:B; try exact H0.
    now apply best_split_substring. }
  match goal with
  | |- substring (if ?c then _ else _) _ => destruct c
  end; [|exact H1].
  destruct (forced_split title_clean) as [s|] eqn:F; [|exact H1].
  now apply forced_split_substring.
Qed.

End CascadePieces.

(* ================================================================== *)
(** * One speed tag in the new title *)

Section NoAnnotationLeft.

Lemma wedge_absent (s artist_name ann : str) (k : nat) :
  artist_wedged s artist_name = false ->
  ann = SLOWED \/ ann = SPEED_UP ->
  0 < k < length ann ->
  contains s (firstn k ann ++ artist_name ++ skipn k ann) = false.
Proof.
  intros Hw Hann Hk.
  destruct (contains s (firstn k ann ++ artist_name ++ skipn k ann)) eqn:E;
    [|reflexivity].
  exfalso. unfold artist_wedged in Hw.
  assert (T : existsb (contains s) (wedge_forms artist_name) = true).
  { apply existsb_exists. eexists. split; [|exact E].
    unfold wedge_forms. apply in_flat_map. exists ann. split.
    - destruct Hann as [-> | ->]; [now left | right; now left].
    - apply in_map_iff. exists k. split; [reflexivity|]. apply in_seq. lia. }
  congruence.
Qed.

(** Cutting the artist out of a piece of the title closes up no [ann]. *)
Lemma splice_closes_nothing (title_clean artist_name p0 p1 ann : str) :
  contains title_clean ann = false ->
  (forall k, 0 < k < length ann ->
     contains title_clean (firstn k ann ++ artist_name ++ skipn k ann) = false) ->
  substring (p0 ++ artist_name ++ p1) title_clean ->
  contains (p0 ++ p1) ann = false.
Proof.
  intros Hann Hw Hsub.
  assert (In0 : forall u v, p0 = u ++ ann ++ v -> False).
  { intros u v E.
    assert (C : contains (p0 ++ artist_name ++ p1) ann = true).
    { rewrite E, <- !app_assoc. apply contains_app. }
    apply (contains_substring _ _ _ Hsub) in C. congruence. }
  assert (In1 : forall u v, p1 = u ++ ann ++ v -> False).
  { intros u v E.
    assert (C : contains (p0 ++ artist_name ++ p1) ann = true).
    { rewrite E.
      replace (p0 ++ artist_name ++ u ++ ann ++ v)
        with ((p0 ++ artist_name ++ u) ++ ann ++ v) by now rewrite <- !app_assoc.
      apply contains_app. }
    apply (contains_substring _ _ _ Hsub) in C. congruence. }
  destruct (contains (p0 ++ p1) ann) eqn:E; [|reflexivity].
  exfalso. apply contains_true_split in E as (x & y & E).
  apply app_eq_app in E as [l [[E1 E2]|[E1 E2]]].
  - symmetry in E2. apply app_eq_app in E2 as [m [[E3 E4]|[E3 E4]]].
    + (* l = ann ++ m *)
      apply (In0 x m). now rewrite E1, E3.
    + (* ann = l ++ m, p1 = m ++ y *)
      destruct l as [|cl l].
      * apply (In1 [] y). cbn [app] in *. now rewrite E4, E3.
      * destruct m as [|cm m].
        -- apply (In0 x []). rewrite E1, E3. now rewrite !app_nil_r.
        -- assert (Hlen : length ann = length (cl :: l) + length (cm :: m))
             by (rewrite E3; apply length_app).
           assert (F : firstn (length (cl :: l)) ann = cl :: l).
           { rewrite E3, firstn_app, firstn_all, Nat.sub_diag.
             cbn [firstn]. apply app_nil_r. }
           assert (K : skipn (length (cl :: l)) ann = cm :: m).
           { rewrite E3, skipn_app, skipn_all, Nat.sub_diag. reflexivity. }
           specialize (Hw (length (cl :: l))). rewrite F, K in Hw.
           assert (C : contains (p0 ++ artist_name ++ p1)
                         ((cl :: l) ++ artist_name ++ cm :: m) = true).
           { rewrite E1, E4.
             replace ((x ++ cl :: l) ++ artist_name ++ (cm :: m) ++ y)
               with (x ++ ((cl :: l) ++ artist_name ++ cm :: m) ++ y)
               by now rewrite <- !app_assoc.
             apply contains_app. }
           apply (contains_substring _ _ _ Hsub) in C.
           rewrite Hw in C; [discriminate|]. cbn [length] in *. lia.
  - apply (In1 l y). exact E2.
Qed.

Lemma final_check_closes_nothing {case : CaseOps}
    (title_clean artist_name piece : str) :
  has_annotation title_clean = false ->
  artist_wedged title_clean artist_name = false ->
  substring piece title_clean ->
  has_annotation (remove_artist_substring title_clean artist_name piece) = false.
Proof.
  intros Hann Hw Hsub.
  pose proof (has_annotation_substring _ _ Hsub Hann) as Hpiece.
  unfold remove_artist_substring.
  destruct (_ && _); [|exact Hpiece].
  destruct (split1 piece artist_name) as [|p0 [|p1 [|p2 ps]]] eqn:E;
    try exact Hpiece.
  destruct (nonempty _); [|exact Hpiece].
  apply split1_two in E.
  assert (Hsub' : substring (p0 ++ artist_name ++ p1) title_clean)
    by (rewrite <- E; exact Hsub).
  apply (has_annotation_substring _ (p0 ++ p1)).
  { eapply substring_trans; [apply substring_strip_leading | apply substring_strip]. }
  unfold has_annotation in Hann |- *.
  apply orb_false_iff in Hann as [H1 H2]. apply orb_false_iff. split.
  - apply (splice_closes_nothing title_clean artist_name); auto.
    intros k Hk. apply wedge_absent; auto.
  - apply (splice_closes_nothing title_clean artist_name); auto.
    intros k Hk. apply wedge_absent; auto.
Qed.

Lemma contains_false_cons (x : char) (s p : str) :
  contains (x :: s) p = false ->
  startswith (x :: s) p = false /\ contains s p = false.
Proof.
  unfold contains. rewrite find_eq.
  destruct (startswith (x :: s) p); [discriminate|].
  destruct (find s p); [discriminate | auto].
Qed.

Lemma occurrences_none (p s : str) : contains s p = false -> occurrences p s = 0.
Proof.
  induction s as [|x s IH]; intros H.
  - unfold contains in H. rewrite find_eq in H. cbn [occurrences].
    destruct (startswith [] p); [discriminate | reflexivity].
  - apply contains_false_cons in H as [H1 H2]. cbn [occurrences].
    rewrite H1. now apply IH.
Qed.

Lemma left_apart_check (old q : str) :
  forallb (fun d => negb (comparable q (skipn d old))) (seq 1 (length old - 1)) = true ->
  left_apart old q.
Proof.
  intros H d Hd. rewrite forallb_forall in H.
  apply negb_true_iff, H, in_seq. lia.
Qed.

Lemma no_straddle_left (old q a : str) :
  left_apart old q ->
  1 <= length a ->
  startswith a old = false ->
  startswith (a ++ q) old = false.
Proof.
  intros Hap Ha Hno. destruct (startswith (a ++ q) old) eqn:E; [|reflexivity].
  exfalso. apply startswith_spec in E as [r E].
  apply app_eq_app in E as [l [[E1 _]|[E1 E2]]].
  - rewrite E1, startswith_self_app in Hno. discriminate.
  - destruct l as [|x l].
    + rewrite app_nil_r in E1. subst a.
      rewrite <- (app_nil_r old) in Hno at 1.
      rewrite startswith_self_app in Hno. discriminate.
    + assert (Hlen : length old = length a + length (x :: l))
        by (rewrite E1 at 1; apply length_app).
      assert (Hl : skipn (length a) old = x :: l).
      { rewrite E1 at 1. rewrite skipn_app, skipn_all, Nat.sub_diag. reflexivity. }
      assert (Hc : comparable q (x :: l) = true).
      { unfold comparable. rewrite E2, startswith_self_app. reflexivity. }
      rewrite <- Hl, Hap in Hc; [discriminate|]. simpl in Hlen. lia.
Qed.

(** A text without [p], followed by a tag that [p] cannot run into, holds
    the occurrences of [p] of the tag and no other. *)
Lemma occurrences_before_tag (p q song : str) :
  left_apart p q ->
  contains song p = false ->
  occurrences p (song ++ q) = occurrences p q.
Proof.
  intros Hap. induction song as [|x s IH]; intros H; [reflexivity|].
  apply contains_false_cons in H as [H1 H2].
  rewrite <- app_comm_cons. cbn [occurrences].
  rewrite app_comm_cons, (no_straddle_left p q (x :: s) Hap) by (simpl; lia || exact H1).
  now apply IH.
Qed.

Lemma one_tag_after_clean_text (song : str) (speed_factor : float) :
  has_annotation song = false ->
  occurrences SLOWED (song ++ speed_tag speed_factor)
  + occurrences SPEED_UP (song ++ speed_tag speed_factor)
  = (if nonempty (speed_tag speed_factor) then 1 else 0).
Proof.
  unfold has_annotation. intros H. apply orb_false_iff in H as [H1 H2].
  destruct (speed_tag_cases speed_factor) as [-> | [-> | ->]].
  - rewrite (occurrences_before_tag SLOWED SLOWED), (occurrences_before_tag SPEED_UP SLOWED);
      auto; apply left_apart_check; vm_compute; reflexivity.
  - rewrite (occurrences_before_tag SLOWED SPEED_UP),
      (occurrences_before_tag SPEED_UP SPEED_UP);
      auto; apply left_apart_check; vm_compute; reflexivity.
  - rewrite app_nil_r, !occurrences_none by assumption. reflexivity.
Qed.

(** An annotation at the end of a title goes with the clean-up, and with it
    nothing else. *)
Lemma strip_speed_tags_at_end (base ann : str) :
  ann = SLOWED \/ ann = SPEED_UP ->
  strip_speed_tags (base ++ ann) = strip_speed_tags base.
Proof.
  intros [-> | ->]; unfold strip_speed_tags; f_equal.
  - f_equal. rewrite <- (app_nil_r SLOWED) at 1.
    rewrite (replace_occurrence SLOWED [] ltac:(simpl; lia) SLOWED_border_free).
    cbn [app]. apply app_nil_r.
  - unfold replace at 2.
    rewrite <- (app_nil_r SPEED_UP) at 1.
    rewrite (replace_from_around_block SLOWED [] SPEED_UP SLOWED_SPEED_UP_apart)
      by lia.
    fold (replace base SLOWED []).
    change (replace_from SLOWED [] 0 []) with (@nil char).
    rewrite (replace_occurrence SPEED_UP [] ltac:(simpl; lia) SPEED_UP_border_free).
    cbn [app]. apply app_nil_r.
Qed.

End NoAnnotationLeft.

(** C5, as the code has it.  Take a title that ends in " (Slowed)" or
    " (Speed Up)".  If what the removal of the annotations leaves of it (one
    pass for each, then the blanks at the ends) holds no speed annotation,
    and none with the artist name wedged inside it, then the annotation at
    the end is stripped before the analysis, and the new title is the
    derived song title followed by the speed tag of the factor: it holds
    exactly one speed annotation, at its end, and none at factor 1.0. *)
Theorem C5_one_speed_tag :
  forall (case : CaseOps) (metadata : dict) (original_filename : option str)
         (speed_factor : float) (base ann : str),
    ann = SLOWED \/ ann = SPEED_UP ->
    dict_get metadata (lit "title") [] = base ++ ann ->
    has_annotation (strip_speed_tags (base ++ ann)) = false ->
    artist_wedged (strip_speed_tags (base ++ ann))
                  (strip (dict_get metadata (lit "artist") [])) = false ->
    exists song_title,
      strip_speed_tags (base ++ ann) = strip_speed_tags base
      /\ derive_song_title (strip_speed_tags base)
           (strip (dict_get metadata (lit "artist") []))
         = Return song_title
      /\ compute_new_title metadata original_filename speed_factor
         = Return (Some (song_title ++ speed_tag speed_factor))
      /\ occurrences SLOWED (song_title ++ speed_tag speed_factor)
         + occurrences SPEED_UP (song_title ++ speed_tag speed_factor)
         = (if nonempty (speed_tag speed_factor) then 1 else 0)
      /\ speed_tag f_1_0 = [].
Proof.
  intros case metadata original_filename speed_factor base ann Hann Ht Hclean Hw.
  pose proof (strip_speed_tags_at_end base ann Hann) as Hend.
  rewrite Hend in Hclean, Hw.
  destruct (derive_song_title_piece (strip_speed_tags base)
              (strip (dict_get metadata (lit "artist") [])))
    as (piece & Hpiece & Hsong).
  eexists. split; [exact Hend|]. split; [exact Hsong|]. split; [|split].
  - unfold compute_new_title. rewrite Ht.
    replace (nonempty (base ++ ann)) with true
      by (destruct Hann as [-> | ->]; destruct base; reflexivity).
    rewrite Hend, Hsong. reflexivity.
  - apply one_tag_after_clean_text.
    now apply final_check_closes_nothing.
  - reflexivity.
Qed.

Lemma C5_one_speed_tag_witness :
  (SLOWED = SLOWED \/ SLOWED = SPEED_UP)
  /\ dict_get [ (lit "title", lit "Artist Name - Song (Remix) (Slowed)");
                (lit "artist", lit "Artist Name") ] (lit "title") []
     = lit "Artist Name - Song (Remix)" ++ SLOWED
  /\ has_annotation (strip_speed_tags (lit "Artist Name - Song (Remix)" ++ SLOWED))
     = false
  /\ artist_wedged (strip_speed_tags (lit "Artist Name - Song (Remix)" ++ SLOWED))
       (strip (dict_get [ (lit "title", lit "Artist Name - Song (Remix) (Slowed)");
                          (lit "artist", lit "Artist Name") ] (lit "artist") []))
     = false
  /\ exists song_title,
       strip_speed_tags (lit "Artist Name - Song (Remix)" ++ SLOWED)
       = strip_speed_tags (lit "Artist Name - Song (Remix)")
       /\ derive_song_title (strip_speed_tags (lit "Artist Name - Song (Remix)"))
            (strip (dict_get [ (lit "title", lit "Artist Name - Song (Remix) (Slowed)");
                               (lit "artist", lit "Artist Name") ] (lit "artist") []))
          = Return song_title
       /\ compute_new_title
            [ (lit "title", lit "Artist Name - Song (Remix) (Slowed)");
              (lit "artist", lit "Artist Name") ] None f_1_2
          = Return (Some (song_title ++ speed_tag f_1_2))
       /\ occurrences SLOWED (song_title ++ speed_tag f_1_2)
          + occurrences SPEED_UP (song_title ++ speed_tag f_1_2)
          = (if nonempty (speed_tag f_1_2) then 1 else 0)
       /\ speed_tag f_1_0 = [].
Proof.
  assert (H1 : SLOWED = SLOWED \/ SLOWED = SPEED_UP) by (left; reflexivity).
  assert (H2 : dict_get [ (lit "title", lit "Artist Name - Song (Remix) (Slowed)");
                          (lit "artist", lit "Artist Name") ] (lit "title") []
               = lit "Artist Name - Song (Remix)" ++ SLOWED) by reflexivity.
  assert (H3 : has_annotation
                 (strip_speed_tags (lit "Artist Name - Song (Remix)" ++ SLOWED))
               = false) by (vm_compute; reflexivity).
  assert (H4 : artist_wedged
                 (strip_speed_tags (lit "Artist Name - Song (Remix)" ++ SLOWED))
                 (strip (dict_get
                           [ (lit "title", lit "Artist Name - Song (Remix) (Slowed)");
                             (lit "artist", lit "Artist Name") ] (lit "artist") []))
               = false) by (vm_compute; reflexivity).
  split; [exact H1|]. split; [exact H2|]. split; [exact H3|]. split; [exact H4|].
  exact (C5_one_speed_tag ascii_case
           [ (lit "title", lit "Artist Name - Song (Remix) (Slowed)");
             (lit "artist", lit "Artist Name") ] None f_1_2
           (lit "Artist Name - Song (Remix)") SLOWED H1 H2 H3 H4).
Defined.
